(** * mcq_exam: the sanitizer, the Markdown parser, the quiz session and
    the program around them

    A shallow embedding of [mcq_exam.py].  Python strings are modelled as
    lists of 8-bit characters read as the code points U+0000..U+00FF; on
    that range the character classes of [re] and of [str] are the ones
    written out below.  Printed lines are kept as structured values, the
    standard input is a list of lines, and an exception that leaves
    [run_quiz] is part of the result. *)

From Stdlib Require Import Ascii String DecimalString.
From Stdlib Require Import List ZArith NArith Bool Arith Lia Permutation.
From Stdlib Require Import Sorted DecimalZ.
Import ListNotations.

Local Open Scope list_scope.

(** ** Characters and strings *)

Definition str := list ascii.

Definition lit (s : string) : str := list_ascii_of_string s.

Definition str_eqb (a b : str) : bool :=
  if list_eq_dec ascii_dec a b then true else false.

(** [str.isspace] and the class [\s] on U+0000..U+00FF. *)
Definition is_space (c : ascii) : bool :=
  let n := nat_of_ascii c in
  ((9 <=? n) && (n <=? 13)) || ((28 <=? n) && (n <=? 32))
  || (n =? 133) || (n =? 160).

(** The class [\d] on U+0000..U+00FF. *)
Definition is_digit (c : ascii) : bool :=
  let n := nat_of_ascii c in (48 <=? n) && (n <=? 57).

(** The class [[A-Z]]. *)
Definition is_upper (c : ascii) : bool :=
  let n := nat_of_ascii c in (65 <=? n) && (n <=? 90).

(** The class [[a-z]]. *)
Definition is_lower (c : ascii) : bool :=
  let n := nat_of_ascii c in (97 <=? n) && (n <=? 122).

(** The class [[A-Za-z]]; on U+0000..U+00FF it is also what [[A-Z]]
    matches under [re.IGNORECASE]. *)
Definition is_alpha (c : ascii) : bool := is_upper c || is_lower c.

(** [str.upper] and [str.lower] on one character.  The program applies
    them to letters a regular expression has matched, and the case
    insensitive match of an ASCII pattern character compares lower-cased
    characters. *)
Definition upper (c : ascii) : ascii :=
  if is_lower c then ascii_of_nat (nat_of_ascii c - 32) else c.

Definition lower (c : ascii) : ascii :=
  if is_upper c then ascii_of_nat (nat_of_ascii c + 32) else c.

Definition eqb_ci (p c : ascii) : bool := Ascii.eqb (lower p) (lower c).

(** [s.startswith(p)]; the rest of [s] is returned on success. *)
Fixpoint starts_with (p s : str) : option str :=
  match p, s with
  | [], _ => Some s
  | a :: p', b :: s' => if Ascii.eqb a b then starts_with p' s' else None
  | _ :: _, [] => None
  end.

(** The same, comparing characters without regard to case. *)
Fixpoint starts_with_ci (p s : str) : option str :=
  match p, s with
  | [], _ => Some s
  | a :: p', b :: s' => if eqb_ci a b then starts_with_ci p' s' else None
  | _ :: _, [] => None
  end.

Fixpoint take_while (f : ascii -> bool) (s : str) : str :=
  match s with
  | c :: s' => if f c then c :: take_while f s' else []
  | [] => []
  end.

Fixpoint drop_while (f : ascii -> bool) (s : str) : str :=
  match s with
  | c :: s' => if f c then drop_while f s' else s
  | [] => []
  end.

Definition lstrip (s : str) : str := drop_while is_space s.
Definition rstrip (s : str) : str := rev (lstrip (rev s)).

(** [s.strip()] *)
Definition strip (s : str) : str := rstrip (lstrip s).

(** [s.splitlines()]: a line ends at LF, VT, FF, CR, CR LF, FS, GS, RS or
    NEL; the terminators are dropped and a final empty piece is not a
    line.  [cur] is the line being read, reversed; [after_cr] says that
    the last character was a CR, whose LF is then skipped. *)
Definition is_line_end (c : ascii) : bool :=
  let n := nat_of_ascii c in
  ((10 <=? n) && (n <=? 13)) || ((28 <=? n) && (n <=? 30)) || (n =? 133).

Fixpoint splitlines_from (cur : str) (after_cr : bool) (s : str)
  : list str :=
  match s with
  | [] => match cur with [] => [] | _ :: _ => [rev cur] end
  | c :: s' =>
      if after_cr && (nat_of_ascii c =? 10) then splitlines_from [] false s'
      else if is_line_end c
           then rev cur :: splitlines_from [] (nat_of_ascii c =? 13) s'
           else splitlines_from (c :: cur) false s'
  end.

Definition splitlines (s : str) : list str := splitlines_from [] false s.

(** [int(digits)] for a run of decimal digits. *)
Definition int_of_digits (ds : str) : N :=
  fold_left (fun acc c => (10 * acc + (N_of_ascii c - 48))%N) ds 0%N.

(** ** Regular expressions

    Each pattern of the program is written as the matcher the [re] engine
    runs for it at one position; [re_search] and [re_sub] move it along
    the string. *)

(** [pattern.search(s)]: the match at the leftmost position that has one. *)
Fixpoint re_search {A : Type} (m : str -> option A) (s : str) : option A :=
  match m s with
  | Some r => Some r
  | None => match s with
            | [] => None
            | _ :: s' => re_search m s'
            end
  end.

(** [pattern.sub(repl, s)] for a pattern that matches no empty string: [m]
    gives the length of the match at the head of its argument.  [skip]
    counts the characters of the current match still to be dropped. *)
Fixpoint sub_from (m : str -> option nat) (repl : str) (skip : nat)
  (s : str) : str :=
  match s with
  | [] => []
  | c :: s' =>
      match skip with
      | S k => sub_from m repl k s'
      | O => match m s with
             | Some (S n) => repl ++ sub_from m repl n s'
             | _ => c :: sub_from m repl 0 s'
             end
      end
  end.

Definition re_sub (m : str -> option nat) (repl s : str) : str :=
  sub_from m repl 0 s.

(** [[\s\S]*?] followed by the literal [p], case-insensitive: the number
    of characters up to the end of the first occurrence of [p]. *)
Fixpoint lazy_until_ci (p s : str) : option nat :=
  match starts_with_ci p s with
  | Some _ => Some (length p)
  | None => match s with
            | [] => None
            | _ :: s' => option_map S (lazy_until_ci p s')
            end
  end.

(** [&lt;details[\s\S]*?&lt;/details&gt;], re.IGNORECASE *)
Definition DETAILS_ENTITY_BLOCK_RE (s : str) : option nat :=
  match starts_with_ci (lit "&lt;details") s with
  | Some r => option_map (fun k => 11 + k)
                (lazy_until_ci (lit "&lt;/details&gt;") r)
  | None => None
  end.

(** [[^&]*?&gt;] *)
Fixpoint lazy_entity_close (s : str) : option nat :=
  match starts_with (lit "&gt;") s with
  | Some _ => Some 4
  | None => match s with
            | [] => None
            | c :: s' => if Ascii.eqb c "&"%char then None
                         else option_map S (lazy_entity_close s')
            end
  end.

(** [&lt;[^&]*?&gt;] *)
Definition ANGLE_ENTITY_RE (s : str) : option nat :=
  match starts_with (lit "&lt;") s with
  | Some r => option_map (fun k => 4 + k) (lazy_entity_close r)
  | None => None
  end.

(** [<details[\s\S]*?</details>], re.IGNORECASE *)
Definition DETAILS_HTML_BLOCK_RE (s : str) : option nat :=
  match starts_with_ci (lit "<details") s with
  | Some r => option_map (fun k => 8 + k)
                (lazy_until_ci (lit "</details>") r)
  | None => None
  end.

(** [[^>]*>] *)
Fixpoint until_gt (s : str) : option nat :=
  match s with
  | [] => None
  | c :: s' => if Ascii.eqb c ">"%char then Some 1
               else option_map S (until_gt s')
  end.

(** [<[^>]+>] *)
Definition ANY_HTML_TAG_RE (s : str) : option nat :=
  match s with
  | "<"%char :: c :: s' =>
      if Ascii.eqb c ">"%char then None
      else option_map (fun k => 2 + k) (until_gt s')
  | _ => None
  end.

(** [\s+] *)
Definition WHITESPACE_RE (s : str) : option nat :=
  match length (take_while is_space s) with
  | O => None
  | S n => Some (S n)
  end.

(** A greedy run of [.]: up to the end of the string or a line feed. *)
Definition dot_star (s : str) : str :=
  take_while (fun c => negb (Ascii.eqb c "010"%char)) s.

Definition split_while (f : ascii -> bool) (s : str) : str * str :=
  (take_while f s, drop_while f s).

(** [QUESTION_RE.match(line)]: optional white space, one or more digits
    (group 1), a period, white space, and the rest of the line (group 2). *)
Definition QUESTION_RE (line : str) : option (str * str) :=
  let (ds, r) := split_while is_digit (lstrip line) in
  match ds, r with
  | _ :: _, "."%char :: ((c :: _) as r') =>
      if is_space c then Some (ds, dot_star (lstrip r')) else None
  | _, _ => None
  end.

(** [CHOICE_RE.match(line)]: optional white space, a dash, optional white
    space, one letter of [[A-Z]] (group 1), a period, optional white space,
    and the rest of the line (group 2). *)
Definition CHOICE_RE (line : str) : option (ascii * str) :=
  match lstrip line with
  | dash :: r =>
      match lstrip r with
      | c :: dot :: r' =>
          if Ascii.eqb dash "-"%char && is_upper c && Ascii.eqb dot "."%char
          then Some (c, dot_star (lstrip r'))
          else None
      | _ => None
      end
  | [] => None
  end.

(** [Correct\s+Answer:\s*([A-Z]+)], re.IGNORECASE, at one position:
    group 1. *)
Definition CORRECT_RE_at (s : str) : option str :=
  match starts_with_ci (lit "Correct") s with
  | Some ((c :: _) as r) =>
      if is_space c then
        match starts_with_ci (lit "Answer:") (lstrip r) with
        | Some r' =>
            match take_while is_alpha (lstrip r') with
            | [] => None
            | g => Some g
            end
        | None => None
        end
      else None
  | _ => None
  end.

Definition CORRECT_RE (line : str) : option str :=
  re_search CORRECT_RE_at line.

(** The alternation [(one|two|three|four|five)]: the text matched and the
    rest. *)
Fixpoint alternation (ws : list str) (s : str) : option (str * str) :=
  match ws with
  | [] => None
  | w :: ws' =>
      match starts_with_ci w s with
      | Some r => Some (firstn (length w) s, r)
      | None => alternation ws' s
      end
  end.

(** [\(\s*Choose\s+(one|two|three|four|five)\.?\s*\)], re.IGNORECASE, at
    one position: group 1. *)
Definition CHOOSE_RE_at (s : str) : option str :=
  match s with
  | "("%char :: r =>
      match starts_with_ci (lit "Choose") (lstrip r) with
      | Some ((c :: _) as r1) =>
          if is_space c then
            match alternation
                    [lit "one"; lit "two"; lit "three"; lit "four"; lit "five"]
                    (lstrip r1) with
            | Some (g, r2) =>
                let r3 := match r2 with "."%char :: t => t | _ => r2 end in
                match lstrip r3 with
                | ")"%char :: _ => Some g
                | _ => None
                end
            | None => None
            end
          else None
      | _ => None
      end
  | _ => None
  end.

Definition CHOOSE_RE (s : str) : option str := re_search CHOOSE_RE_at s.

Definition WORD_TO_INT : list (str * nat) :=
  [(lit "one", 1); (lit "two", 2); (lit "three", 3); (lit "four", 4);
   (lit "five", 5)].

(** [WORD_TO_INT.get(word)] *)
Fixpoint dict_get {V : Type} (d : list (str * V)) (k : str) : option V :=
  match d with
  | [] => None
  | (k', v) :: d' => if str_eqb k' k then Some v else dict_get d' k
  end.

(** ** Cleaning helpers *)

Definition clean_question_text (text : str) : str :=
  match text with
  | [] => text
  | _ :: _ =>
      let text := re_sub DETAILS_ENTITY_BLOCK_RE [] text in
      let text := re_sub ANGLE_ENTITY_RE [] text in
      let text := re_sub DETAILS_HTML_BLOCK_RE [] text in
      let text := re_sub ANY_HTML_TAG_RE [] text in
      strip (re_sub WHITESPACE_RE [" "%char] text)
  end.

(** ** Model *)

Record Question := {
  number : N;
  text : str;
  choices : list (ascii * str);
  correct_letters : list ascii;
  choose_n : option nat
}.

(** [Question(number, text)] *)
Definition new_question (n : N) (t : str) : Question :=
  {| number := n; text := strip t; choices := []; correct_letters := [];
     choose_n := None |}.

Definition set_text (q : Question) (t : str) : Question :=
  {| number := number q; text := t; choices := choices q;
     correct_letters := correct_letters q; choose_n := choose_n q |}.

Definition set_choose_n (q : Question) (n : option nat) : Question :=
  {| number := number q; text := text q; choices := choices q;
     correct_letters := correct_letters q; choose_n := n |}.

Definition add_choice (q : Question) (letter : ascii) (t : str) : Question :=
  {| number := number q; text := text q;
     choices := choices q ++ [(upper letter, strip t)];
     correct_letters := correct_letters q; choose_n := choose_n q |}.

Definition set_correct (q : Question) (letters : list ascii) : Question :=
  {| number := number q; text := text q; choices := choices q;
     correct_letters := map upper letters; choose_n := choose_n q |}.

Definition infer_choose_n (q : Question) : Question :=
  match choose_n q, correct_letters q with
  | None, _ :: _ => set_choose_n q (Some (length (correct_letters q)))
  | _, _ => q
  end.

(** ** Parser *)

(** The two variables of the loop of [parse_markdown_exam_text]. *)
Record parser_state := {
  questions : list Question;
  current_q : option Question
}.

(** What the loop does when a question is closed: the choose count is
    inferred and the text cleaned. *)
Definition finalize (q : Question) : Question :=
  let q := infer_choose_n q in
  set_text q (clean_question_text (text q)).

(** The last test of the loop body: the line continues the question text. *)
Definition is_wrapped_text (line : str) : bool :=
  match line with
  | [] => false
  | c :: _ =>
      negb (Ascii.eqb c "-"%char)
      && match starts_with (lit "Answer") (strip line) with
         | Some _ => false
         | None => true
         end
  end.

(** One iteration of the loop over the lines. *)
Definition parse_line (st : parser_state) (line : str) : parser_state :=
  match QUESTION_RE line with
  | Some (g1, qtext) =>
      let done :=
        match current_q st with
        | Some c => questions st ++ [finalize c]
        | None => questions st
        end in
      let q := new_question (int_of_digits g1) qtext in
      let q :=
        match CHOOSE_RE qtext with
        | Some word => set_choose_n q (dict_get WORD_TO_INT (map lower word))
        | None => q
        end in
      {| questions := done; current_q := Some q |}
  | None =>
      match current_q st with
      | None => st
      | Some c =>
          match CHOICE_RE line with
          | Some (letter, text_opt) =>
              {| questions := questions st;
                 current_q := Some (add_choice c letter text_opt) |}
          | None =>
              match CORRECT_RE line with
              | Some g =>
                  {| questions := questions st;
                     current_q :=
                       Some (infer_choose_n (set_correct c (strip g))) |}
              | None =>
                  if is_wrapped_text line
                  then {| questions := questions st;
                          current_q :=
                            Some (set_text c
                                    (text c ++ " "%char :: strip line)) |}
                  else st
              end
          end
      end
  end.

Definition is_nil {A : Type} (l : list A) : bool :=
  match l with [] => true | _ :: _ => false end.

(** After the loop: the last question is closed if it has choices, and
    the questions without choices are dropped. *)
Definition parse_finish (st : parser_state) : list Question :=
  let qs :=
    match current_q st with
    | Some c => if is_nil (choices c) then questions st
                else questions st ++ [finalize c]
    | None => questions st
    end in
  filter (fun q => negb (is_nil (choices q))) qs.

Definition parse_lines (st : parser_state) (lines : list str)
  : parser_state := fold_left parse_line lines st.

Definition parse_markdown_exam_text (t : str) : list Question :=
  parse_finish
    (parse_lines {| questions := []; current_q := None |} (splitlines t)).

(** ** Floating point

    [correct/total] is Python's true division of two integers: the
    quotient correctly rounded to binary64, ties to even.  A binary64
    number is kept as [fmant * 2^fexp].  The exponent range is not
    modelled: the operands are a count of answers and the length of a
    list, far from overflow and from the subnormal numbers. *)

Record float := { fmant : Z; fexp : Z }.

Local Open Scope Z_scope.

(** [2^k] for a shift to the left, 1 for a shift that goes the other way. *)
Definition pow2 (k : Z) : Z := 2 ^ Z.max 0 k.

(** The exponent [e] of the quotient: [2^e <= c/t < 2^(e+1)]. *)
Definition quotient_exponent (c t : Z) : Z :=
  let e0 := Z.log2 c - Z.log2 t in
  if t * pow2 e0 <=? c * pow2 (- e0) then e0 else e0 - 1.

(** [c / t] for [0 <= c] and [0 < t]: 53 bits of the quotient, rounded to
    nearest, ties to even. *)
Definition true_divide (c t : Z) : float :=
  if c =? 0 then {| fmant := 0; fexp := 0 |}
  else
    let e := quotient_exponent c t in
    let num := c * pow2 (52 - e) in
    let den := t * pow2 (e - 52) in
    let q := num / den in
    let r := num mod den in
    let up := (den <? 2 * r) || ((den =? 2 * r) && Z.odd q) in
    {| fmant := if up then q + 1 else q; fexp := e - 52 |}.

(** [x >= y] *)
Definition float_ge (x y : float) : bool :=
  let e := Z.min (fexp x) (fexp y) in
  fmant y * 2 ^ (fexp y - e) <=? fmant x * 2 ^ (fexp x - e).

(** The literal [0.7]: the binary64 number nearest to 7/10. *)
Definition float_0_7 : float := true_divide 7 10.

Local Close Scope Z_scope.

(** ** Runner *)

(** The lines [run_quiz] writes, each with the statement that writes it. *)
Inductive printed :=
| PHeader (idx total : nat)      (* print(f"\nQuestion {idx} of {total}") *)
| PText (t : str)                (* print(q.text) *)
| PChoice (letter : ascii) (t : str)   (* print(f"  {letter}. {text}") *)
| PPrompt                        (* the prompt of input(prompt) *)
| PInputClosed                   (* print("\nInput closed.") *)
| PNeedLetter                    (* print("Please enter at least one letter.") *)
| PInvalid (invalid : list ascii)
      (* print(f"Invalid option(s): {', '.join(invalid)}. Try again.") *)
| PExactly (expected_n : nat)
      (* print(f"Please select exactly {expected_n} unique letter(s).") *)
| PCorrect                       (* the line that ends in "Correct!" *)
| PIncorrect                     (* the line that ends in "Incorrect." *)
| PCorrectAnswer (corr_info : list (ascii * str))
      (* print(f"Correct answer: {corr_info}") *)
| PScore (correct running_total : nat)
      (* print(f"Score: {correct}/{running_total}") *)
| PFinalScore (correct total : nat)
      (* print(f"\nYour final score: {correct}/{total}") *)
| PPassed (final_score : float)
      (* print(f"\nCongratulations! ... {final_score*100}/100") *)
| PNotPassed.                    (* print(f"\nSorry, you have not passed ...") *)

(** [str(n)] *)
Definition str_of_nat (n : nat) : str :=
  lit (NilEmpty.string_of_uint (Nat.to_uint n)).

(** The text of the two score lines. *)
Definition score_text (label : str) (c t : nat) : str :=
  label ++ str_of_nat c ++ "/"%char :: str_of_nat t.

Definition line_text (p : printed) : option str :=
  match p with
  | PScore c rt => Some (score_text (lit "Score: ") c rt)
  | PFinalScore c t =>
      Some ("010"%char :: score_text (lit "Your final score: ") c t)
  | PInputClosed => Some ("010"%char :: lit "Input closed.")
  | _ => None
  end.

Inductive exn := IndexError | ZeroDivisionError.

(** How a call of [run_quiz] ends: it falls off its end, it returns from
    the handler of [EOFError], or an exception leaves it. *)
Inductive outcome := Finished | InputClosed | Raised (e : exn).

(** Python sets of letters, as lists. *)
Definition set_of (l : list ascii) : list ascii := nodup ascii_dec l.

Definition mem (c : ascii) (l : list ascii) : bool :=
  existsb (Ascii.eqb c) l.

Definition issubset (a b : list ascii) : bool :=
  forallb (fun c => mem c b) a.

Definition set_eqb (a b : list ascii) : bool := issubset a b && issubset b a.

Fixpoint insert_sorted (c : ascii) (l : list ascii) : list ascii :=
  match l with
  | [] => [c]
  | d :: l' => if nat_of_ascii c <=? nat_of_ascii d then c :: l
               else d :: insert_sorted c l'
  end.

Definition sorted (l : list ascii) : list ascii :=
  fold_right insert_sorted [] l.

(** [corr_texts.get(l, '')] for the dict built from the choices, where a
    later pair replaces an earlier one with the same letter. *)
Fixpoint corr_text (chs : list (ascii * str)) (l : ascii) : str :=
  match chs with
  | [] => []
  | (l', t) :: chs' =>
      if mem l (map fst chs') then corr_text chs' l
      else if Ascii.eqb l' l then t else []
  end.

(** [multi] *)
Definition is_multi (q : Question) : bool :=
  match choose_n q with
  | Some n => 1 <? n
  | None => false
  end
  || (1 <? length (correct_letters q)).

(** [q.choose_n or len(q.correct_letters)] *)
Definition expected_count (q : Question) : nat :=
  match choose_n q with
  | Some (S n) => S n
  | _ => length (correct_letters q)
  end.

(** What one pass of the validation loop does with the line it read. *)
Inductive verdict :=
| Retry (msg : printed)
| Scored (is_correct : bool)
| Fails (e : exn).

Definition check_answer (q : Question) (chs : list (ascii * str))
  (multi : bool) (line : str) : verdict :=
  let raw := strip line in
  let letters := map upper (filter is_alpha raw) in
  match letters with
  | [] => Retry PNeedLetter
  | first :: _ =>
      let valid_letters := map fst chs in
      if negb (issubset letters valid_letters)
      then Retry (PInvalid
                    (sorted (filter (fun c => negb (mem c valid_letters))
                               (set_of letters))))
      else if multi then
        let expected_n := expected_count q in
        if negb (length (set_of letters) =? expected_n)
        then Retry (PExactly expected_n)
        else Scored (set_eqb letters (correct_letters q))
      else
        match correct_letters q with
        | c0 :: _ => Scored (Ascii.eqb first c0)
        | [] => Fails IndexError
        end
  end.

(** The validation loop.  The standard input is the list of the lines
    still to come; [input] raises [EOFError] when it is empty. *)
Inductive asked :=
| Eof
| Answer (is_correct : bool) (rest : list str)
| Error (e : exn).

Fixpoint ask (q : Question) (chs : list (ascii * str)) (multi : bool)
  (inputs : list str) : list printed * asked :=
  match inputs with
  | [] => ([PPrompt; PInputClosed], Eof)
  | line :: rest =>
      match check_answer q chs multi line with
      | Retry msg =>
          let (out, r) := ask q chs multi rest in
          (PPrompt :: msg :: out, r)
      | Scored b => ([PPrompt], Answer b rest)
      | Fails e => ([PPrompt], Error e)
      end
  end.

(** The part of the loop body from [q.infer_choose_n()] to the end of the
    validation loop. *)
Definition ask_question (q : Question) (chs : list (ascii * str))
  (inputs : list str) : list printed * asked :=
  let q := infer_choose_n q in
  ask q chs (is_multi q) inputs.

(** The counters of the session. *)
Record counters := { correct : nat; running_total : nat }.

Record result := {
  output : list printed;
  final : outcome;
  score : counters
}.

Definition prepend (out : list printed) (r : result) : result :=
  {| output := out ++ output r; final := final r; score := score r |}.

(** [questions[:limit]] *)
Definition slice_to {A : Type} (limit : Z) (l : list A) : list A :=
  let len := Z.of_nat (length l) in
  let stop := if (limit <? 0)%Z then Z.max (len + limit) 0
              else Z.min limit len in
  firstn (Z.to_nat stop) l.

(** The lines after the loop. *)
Definition final_part (c total : nat) (st : counters) : result :=
  match total with
  | O => {| output := [PFinalScore c total];
            final := Raised ZeroDivisionError; score := st |}
  | S _ =>
      let final_score := true_divide (Z.of_nat c) (Z.of_nat total) in
      {| output := [PFinalScore c total;
                    if float_ge final_score float_0_7
                    then PPassed final_score else PNotPassed];
         final := Finished; score := st |}
  end.

Section Runner.

(** The module [random]: the state of its generator, [random.seed] and
    [random.shuffle]. *)
Variable rng : Type.
Variable random_seed : Z -> rng.
Variable random_shuffle : forall A : Type, list A -> rng -> list A * rng.

Definition shuffle_if {A : Type} (b : bool) (l : list A) (g : rng)
  : list A * rng :=
  if b then random_shuffle A l g else (l, g).

(** The loop over the questions; [idx] is the index of the first of
    [qs] and [st] holds [correct] and [running_total]. *)
Fixpoint quiz_loop (shuffle_choices : bool) (total idx : nat)
  (qs : list Question) (st : counters) (g : rng) (inputs : list str)
  : result :=
  match qs with
  | [] => final_part (correct st) total st
  | q :: qs' =>
      let rt := running_total st + 1 in
      let (chs, g') := shuffle_if shuffle_choices (choices q) g in
      let shown := PHeader idx total :: PText (text q)
                   :: map (fun p => PChoice (fst p) (snd p)) chs in
      match ask_question q chs inputs with
      | (out, Eof) =>
          {| output := shown ++ out; final := InputClosed;
             score := {| correct := correct st; running_total := rt |} |}
      | (out, Error e) =>
          {| output := shown ++ out; final := Raised e;
             score := {| correct := correct st; running_total := rt |} |}
      | (out, Answer is_correct rest) =>
          let c := if is_correct then correct st + 1 else correct st in
          let verdict_lines :=
            if is_correct then [PCorrect]
            else [PIncorrect;
                  PCorrectAnswer
                    (map (fun l => (l, corr_text chs l))
                       (correct_letters q))] in
          prepend (shown ++ out ++ verdict_lines ++ [PScore c rt])
            (quiz_loop shuffle_choices total (idx + 1) qs'
               {| correct := c; running_total := rt |} g' rest)
      end
  end.

(** The beginning of [run_quiz]: the seed, the shuffle and the limit. *)
Definition session_questions (qs : list Question)
  (shuffle_questions : bool) (limit seed : option Z) (g : rng)
  : list Question * rng :=
  let g := match seed with Some s => random_seed s | None => g end in
  let (qs, g) := shuffle_if shuffle_questions qs g in
  (match limit with Some n => slice_to n qs | None => qs end, g).

Definition run_quiz (qs : list Question)
  (shuffle_questions shuffle_choices : bool) (limit seed : option Z)
  (g : rng) (inputs : list str) : result :=
  let (qs, g) := session_questions qs shuffle_questions limit seed g in
  quiz_loop shuffle_choices (length qs) 1 qs
    {| correct := 0; running_total := 0 |} g inputs.

End Runner.

(** A generator that leaves every list as it is, for the sessions that
    are evaluated below. *)
Definition no_shuffle (A : Type) (l : list A) (g : unit) : list A * unit :=
  (l, g).

Definition run_plain (qs : list Question) (limit : option Z)
  (inputs : list str) : result :=
  run_quiz unit (fun _ => tt) no_shuffle qs false false limit None tt inputs.

(** ** Documents and sessions used in the statements below *)

Definition canonical_document : str := lit
"1. What is S3? (Choose one.)
- A. Storage
- B. Compute
Correct Answer: A
2. Pick two. (Choose two.)
- A. X
- B. Y
- C. Z
Correct Answer: AC".

Definition canonical_q1 : Question :=
  {| number := 1; text := lit "What is S3? (Choose one.)";
     choices := [("A"%char, lit "Storage"); ("B"%char, lit "Compute")];
     correct_letters := ["A"%char]; choose_n := Some 1 |}.

Definition canonical_q2 : Question :=
  {| number := 2; text := lit "Pick two. (Choose two.)";
     choices := [("A"%char, lit "X"); ("B"%char, lit "Y");
                 ("C"%char, lit "Z")];
     correct_letters := ["A"%char; "C"%char]; choose_n := Some 2 |}.

(** A question whose block has no answer line. *)
Definition unanswered_document : str := lit
"1. What is S3?
- A. Storage
- B. Compute".

Definition unanswered_q : Question :=
  {| number := 1; text := lit "What is S3?";
     choices := [("A"%char, lit "Storage"); ("B"%char, lit "Compute")];
     correct_letters := []; choose_n := None |}.


(** The lines of the summary that follows the loop. *)
Definition is_summary (p : printed) : bool :=
  match p with
  | PFinalScore _ _ | PPassed _ | PNotPassed => true
  | _ => false
  end.

(** The lines that are printed when an answer has been scored. *)
Definition is_scoring (p : printed) : bool :=
  match p with
  | PCorrect | PIncorrect | PCorrectAnswer _ | PScore _ _ => true
  | _ => false
  end.

(** The lines of the validation loop. *)
Definition is_dialogue (p : printed) : bool :=
  match p with
  | PPrompt | PInputClosed | PNeedLetter | PInvalid _ | PExactly _ => true
  | _ => false
  end.

(** A line of input that the validation loop of [q] rejects, and what the
    loop prints for a run of such lines. *)
Definition rejected (q : Question) (chs : list (ascii * str)) (line : str)
  : bool :=
  let q := infer_choose_n q in
  match check_answer q chs (is_multi q) line with
  | Retry _ => true
  | _ => false
  end.


(** The headers and the question texts among the printed lines. *)
Definition header_lines (out : list printed) : list (nat * nat) :=
  flat_map (fun p => match p with PHeader i t => [(i, t)] | _ => [] end) out.

Definition text_lines (out : list printed) : list str :=
  flat_map (fun p => match p with PText t => [t] | _ => [] end) out.

(** Ten times the first canonical question, and the lines of a user who
    answers it right a given number of times and then wrong. *)
Definition ten_questions : list Question := repeat canonical_q1 10.

Definition answers (right wrong : nat) : list str :=
  repeat (lit "A") right ++ repeat (lit "B") wrong.

(** A question that asks for two letters and has one correct letter. *)
Definition mismatched_q : Question :=
  {| number := 1; text := lit "Pick. (Choose two.)";
     choices := [("A"%char, lit "X"); ("B"%char, lit "Y")];
     correct_letters := ["A"%char]; choose_n := Some 2 |}.

(** The white space step of [clean_question_text], before the strip. *)
Definition collapse (s : str) : str := re_sub WHITESPACE_RE [" "%char] s.

(** [m] matches at no position of [s]. *)
Fixpoint never_matches (m : str -> option nat) (s : str) : bool :=
  match m s with
  | Some _ => false
  | None => match s with
            | [] => true
            | _ :: s' => never_matches m s'
            end
  end.

(** None of the four patterns that [clean_question_text] removes matches
    anywhere in [s]. *)
Definition no_fragment (s : str) : bool :=
  never_matches DETAILS_ENTITY_BLOCK_RE s
  && never_matches ANGLE_ENTITY_RE s
  && never_matches DETAILS_HTML_BLOCK_RE s
  && never_matches ANY_HTML_TAG_RE s.

(** White space in [s] is made of single spaces. *)
Fixpoint single_spaced (s : str) : bool :=
  match s with
  | [] => true
  | c :: s' =>
      (if is_space c
       then Ascii.eqb c " "%char
            && match s' with
               | [] => true
               | d :: _ => negb (is_space d)
               end
       else true)
      && single_spaced s'
  end.



Definition is_question_line (line : str) : bool :=
  match QUESTION_RE line with Some _ => true | None => false end.




(** The letters the validation loop takes from a line of input. *)
Definition letters_of (line : str) : list ascii :=
  map upper (filter is_alpha (strip line)).

(** ** The parser, block by block *)

(** The question that a question line opens: the constructor and the
    search for the choose count. *)
Definition start_question (g1 qtext : str) : Question :=
  let q := new_question (int_of_digits g1) qtext in
  match CHOOSE_RE qtext with
  | Some word => set_choose_n q (dict_get WORD_TO_INT (map lower word))
  | None => q
  end.

(** What a line that is no question line does to the open question: the
    tests of the loop body after [if current_q is None]. *)
Definition block_step (c : Question) (line : str) : Question :=
  match CHOICE_RE line with
  | Some (letter, text_opt) => add_choice c letter text_opt
  | None =>
      match CORRECT_RE line with
      | Some g => infer_choose_n (set_correct c (strip g))
      | None =>
          if is_wrapped_text line
          then set_text c (text c ++ " "%char :: strip line)
          else c
      end
  end.

(** The question built from a question line and the lines of its block. *)
Definition parse_block (qline : str) (block : list str) : option Question :=
  match QUESTION_RE qline with
  | Some (g1, qtext) =>
      Some (finalize (fold_left block_step block (start_question g1 qtext)))
  | None => None
  end.

(** The parser on the lines of the document. *)
Definition parse_document (lines : list str) : list Question :=
  parse_finish (parse_lines {| questions := []; current_q := None |} lines).

(** The lines before the first question line, and the question lines with
    their blocks. *)
Fixpoint split_blocks (lines : list str)
  : list str * list (str * list str) :=
  match lines with
  | [] => ([], [])
  | l :: ls =>
      let (pre, bs) := split_blocks ls in
      if is_question_line l then ([], (l, pre) :: bs) else (l :: pre, bs)
  end.

(** The questions of a block that the parser keeps: the one it builds, if
    it has a choice. *)
Definition emit_block (b : str * list str) : list Question :=
  match parse_block (fst b) (snd b) with
  | Some q => if is_nil (choices q) then [] else [q]
  | None => []
  end.


(** ** Sessions, line by line *)

(** The score lines among the printed lines, and the number of lines of
    one kind. *)
Definition score_lines (out : list printed) : list (nat * nat) :=
  flat_map (fun p => match p with PScore c rt => [(c, rt)] | _ => [] end) out.

Definition is_PCorrect (p : printed) : bool :=
  match p with PCorrect => true | _ => false end.

Definition is_PIncorrect (p : printed) : bool :=
  match p with PIncorrect => true | _ => false end.

Definition count_lines (f : printed -> bool) (out : list printed) : nat :=
  length (filter f out).

(** A question that can be answered right: it has a correct letter, its
    correct letters are upper-case letters that its choices offer, and in
    multi-select mode the number of letters asked for is the number of
    distinct correct letters. *)
Definition answerable (q : Question) : bool :=
  negb (is_nil (correct_letters q))
  && forallb is_upper (correct_letters q)
  && issubset (correct_letters q) (map fst (choices q))
  && (negb (is_multi (infer_choose_n q))
      || (expected_count (infer_choose_n q)
          =? length (set_of (correct_letters q)))).

(** ** Source acquisition *)

Definition REPO_USER : str := lit "kananinirav".
Definition REPO_NAME : str := lit "AWS-Certified-Cloud-Practitioner-Notes".
Definition REPO_BRANCH : str := lit "master".
Definition REPO_EXAMS_DIR : str := lit "practice-exam".

(** [str(n)] for an integer, as an f-string writes it. *)
Definition str_of_int (n : Z) : str :=
  lit (NilEmpty.string_of_int (Z.to_int n)).

Definition build_github_raw_url (exam_number : Z) : str :=
  let filename := lit "practice-exam-" ++ str_of_int exam_number ++ lit ".md" in
  let path_in_repo := REPO_EXAMS_DIR ++ "/"%char :: filename in
  lit "https://raw.githubusercontent.com/" ++ REPO_USER ++ "/"%char
    :: REPO_NAME ++ "/"%char :: REPO_BRANCH ++ "/"%char :: path_in_repo.

(** The options of the command line, as [argparse] hands them to [main]. *)
Module Args.

Inductive source_kind := github | local.

Record t := {
  source : source_kind;
  exam_number : option Z;
  exam_md : option str;
  shuffle_questions : bool;
  shuffle_choices : bool;
  limit : option Z;
  seed : option Z
}.

End Args.

Section Program.

(** The module [random], as in the runner. *)
Variable rng : Type.
Variable random_seed : Z -> rng.
Variable random_shuffle : forall A : Type, list A -> rng -> list A * rng.

(** The module [requests]: [None] when its import has failed, else its
    function [get], which raises an exception or returns the status code
    and the text of the response. *)
Variable request_error : Type.
Variable requests : option (str -> request_error + Z * str).

(** The file system behind [pathlib]: [Path], [Path.exists] and
    [Path.read_text], which can raise. *)
Variable path : Type.
Variable Path : str -> path.
Variable path_exists : path -> bool.
Variable io_error : Type.
Variable read_text : path -> io_error + str.

(** The exceptions that the two acquisition functions raise. *)
Inductive acquisition_error :=
| RequestsMissing                 (* RuntimeError: requests is required *)
| HttpStatus (exam_number status : Z) (url : str)
                                  (* RuntimeError: Failed to fetch exam *)
| RequestRaised (e : request_error)
| FileNotFound (p : path)         (* FileNotFoundError *)
| ReadRaised (e : io_error).

Definition fetch_exam_from_github (exam_number : Z)
  : acquisition_error + str :=
  match requests with
  | None => inl RequestsMissing
  | Some get =>
      let url := build_github_raw_url exam_number in
      match get url with
      | inl e => inl (RequestRaised e)
      | inr (status_code, resp_text) =>
          if (status_code =? 200)%Z then inr resp_text
          else inl (HttpStatus exam_number status_code url)
      end
  end.

Definition read_local_exam (p : path) : acquisition_error + str :=
  if negb (path_exists p) then inl (FileNotFound p)
  else match read_text p with
       | inl e => inl (ReadRaised e)
       | inr t => inr t
       end.

(** What [main] prints before it exits. *)
Inductive main_message :=
| NeedExamNumber       (* Please provide --exam-number when --source github. *)
| FetchFailed (e : acquisition_error)
                       (* Error fetching exam from GitHub: {e} *)
| NeedExamMd           (* Please provide --exam-md when --source local. *)
| ReadFailed (e : acquisition_error)
                       (* Error reading local file: {e} *)
| NoQuestions.         (* No questions found. ... *)

(** How [main] ends: [sys.exit] with a status after a message, or the
    call of [run_quiz]. *)
Inductive main_result :=
| Exit (status : Z) (msg : main_message)
| Ran (r : result).

(** The first part of [main]: the Markdown text, or the exit. *)
Definition acquire (args : Args.t) : main_result + str :=
  match Args.source args with
  | Args.github =>
      match Args.exam_number args with
      | None => inl (Exit 2 NeedExamNumber)
      | Some n =>
          match fetch_exam_from_github n with
          | inl e => inl (Exit 3 (FetchFailed e))
          | inr md_text => inr md_text
          end
      end
  | Args.local =>
      match Args.exam_md args with
      | None | Some [] => inl (Exit 2 NeedExamMd)
      | Some p =>
          match read_local_exam (Path p) with
          | inl e => inl (Exit 3 (ReadFailed e))
          | inr md_text => inr md_text
          end
      end
  end.

Definition main (args : Args.t) (g : rng) (inputs : list str)
  : main_result :=
  match acquire args with
  | inl exit => exit
  | inr md_text =>
      let questions := parse_markdown_exam_text md_text in
      if is_nil questions then Exit 4 NoQuestions
      else Ran (run_quiz rng random_seed random_shuffle questions
                  (Args.shuffle_questions args) (Args.shuffle_choices args)
                  (Args.limit args) (Args.seed args) g inputs)
  end.

End Program.

Arguments Exit {request_error path io_error} status msg.
Arguments Ran {request_error path io_error} r.

(** A run of the program that is evaluated below: exam 16 from GitHub,
    where every address answers with status 200 and the given document,
    no file exists, and nothing is shuffled. *)
Definition github_args : Args.t :=
  {| Args.source := Args.github; Args.exam_number := Some 16%Z;
     Args.exam_md := None; Args.shuffle_questions := false;
     Args.shuffle_choices := false; Args.limit := None;
     Args.seed := None |}.

Definition main_on (doc : str) (inputs : list str)
  : main_result unit str unit :=
  main unit (fun _ => tt) no_shuffle unit
    (Some (fun _ => inr (200%Z, doc))) str (fun p => p) (fun _ => false)
    unit (fun _ => inl tt) github_args tt inputs.

(** * Proofs *)

(** ** Sets of letters *)

Lemma mem_In (c : ascii) (l : list ascii) : mem c l = true <-> In c l.
Proof.
  unfold mem. rewrite existsb_exists. split.
  - intros [x [Hin Heq]]. apply Ascii.eqb_eq in Heq. now subst.
  - intros Hin. exists c. split; [assumption | apply Ascii.eqb_refl].
Qed.

Lemma issubset_incl (a b : list ascii) :
  issubset a b = true <-> incl a b.
Proof.
  unfold issubset. rewrite forallb_forall. unfold incl.
  split; intros H x Hx; apply mem_In; auto.
Qed.

Lemma set_of_incl (a b : list ascii) :
  incl a b -> incl (set_of a) (set_of b).
Proof.
  unfold set_of. intros H x Hx.
  apply nodup_In. apply H. now apply nodup_In in Hx.
Qed.

Lemma set_eqb_cardinal (a b : list ascii) :
  set_eqb a b = true -> length (set_of a) = length (set_of b).
Proof.
  unfold set_eqb. rewrite andb_true_iff, !issubset_incl.
  intros [Hab Hba].
  apply Nat.le_antisymm; apply NoDup_incl_length;
    try apply NoDup_nodup; now apply set_of_incl.
Qed.

(** ** The validation loop *)

Lemma infer_choose_n_set (q : Question) (n : nat) :
  choose_n q = Some n -> infer_choose_n q = q.
Proof.
  unfold infer_choose_n. intros ->. reflexivity.
Qed.

Lemma letters_of_cons (line : str) :
  set_of (letters_of line) <> [] ->
  exists c l, letters_of line = c :: l.
Proof.
  destruct (letters_of line) as [|c l]; [now intros [] | eauto].
Qed.

(** C4. For a question with [choose_n = 2], a line whose letters are all
    offered by the question is rejected with the request for exactly 2
    letters, and the question is asked again on the lines that follow,
    when it holds 1 or 3 distinct letters; it is accepted when it holds
    exactly 2, whatever else the line contains and in whatever order and
    case the letters come. *)
Theorem multi_select_count_enforced :
  forall (q : Question) (chs : list (ascii * str)) (line : str)
         (rest : list str),
    choose_n q = Some 2 ->
    issubset (letters_of line) (map fst chs) = true ->
    (length (set_of (letters_of line)) = 1
     \/ length (set_of (letters_of line)) = 3 ->
     ask_question q chs (line :: rest) =
       (PPrompt :: PExactly 2 :: fst (ask_question q chs rest),
        snd (ask_question q chs rest)))
    /\ (length (set_of (letters_of line)) = 2 ->
        ask_question q chs (line :: rest) =
          ([PPrompt],
           Answer (set_eqb (letters_of line) (correct_letters q)) rest)).
Proof.
  intros q chs line rest Hn Hsub.
  unfold ask_question. rewrite (infer_choose_n_set q 2 Hn).
  assert (Hm : is_multi q = true) by (unfold is_multi; now rewrite Hn).
  assert (He : expected_count q = 2) by (unfold expected_count; now rewrite Hn).
  rewrite Hm. cbn [ask]. unfold check_answer.
  fold (letters_of line). rewrite Hsub, He. cbn [negb].
  split; intros Hlen.
  - destruct (letters_of_cons line) as [c [l Hl]].
    { destruct Hlen as [H|H]; intros E; rewrite E in H; discriminate. }
    rewrite Hl in *.
    replace (length (set_of (c :: l)) =? 2) with false
      by (symmetry; apply Nat.eqb_neq; lia).
    cbn [negb]. now destruct (ask q chs true rest).
  - destruct (letters_of_cons line) as [c [l Hl]].
    { intros E; rewrite E in Hlen; discriminate. }
    rewrite Hl in *.
    rewrite Hlen. reflexivity.
Qed.

(** The three ways of writing the letters A and C that the specification
    names, on the second question of the canonical document. *)
Lemma multi_select_count_enforced_witness :
  ask_question canonical_q2 (choices canonical_q2) [lit "AC"]
    = ([PPrompt], Answer true [])
  /\ ask_question canonical_q2 (choices canonical_q2) [lit "A,C"]
    = ([PPrompt], Answer true [])
  /\ ask_question canonical_q2 (choices canonical_q2) [lit "a, c"]
    = ([PPrompt], Answer true [])
  /\ ask_question canonical_q2 (choices canonical_q2) [lit "B"; lit "c a"]
    = ([PPrompt; PExactly 2; PPrompt], Answer true [])
  /\ ask_question canonical_q2 (choices canonical_q2) [lit "ABC"]
    = ([PPrompt; PExactly 2; PPrompt; PInputClosed], Eof).
Proof.
  split; [| split; [| split; [| split]]].
  - apply (proj2 (multi_select_count_enforced canonical_q2
                    (choices canonical_q2) (lit "AC") []
                    eq_refl eq_refl) eq_refl).
  - apply (proj2 (multi_select_count_enforced canonical_q2
                    (choices canonical_q2) (lit "A,C") []
                    eq_refl eq_refl) eq_refl).
  - apply (proj2 (multi_select_count_enforced canonical_q2
                    (choices canonical_q2) (lit "a, c") []
                    eq_refl eq_refl) eq_refl).
  - apply (proj1 (multi_select_count_enforced canonical_q2
                    (choices canonical_q2) (lit "B") [lit "c a"]
                    eq_refl eq_refl) (or_introl eq_refl)).
  - apply (proj1 (multi_select_count_enforced canonical_q2
                    (choices canonical_q2) (lit "ABC") []
                    eq_refl eq_refl) (or_intror eq_refl)).
Defined.

Lemma ask_never_correct (q : Question) (chs : list (ascii * str))
  (inputs : list str) :
  is_multi q = true ->
  expected_count q <> length (set_of (correct_letters q)) ->
  forall rest, snd (ask q chs true inputs) <> Answer true rest.
Proof.
  intros _ Hne. induction inputs as [|line inputs IH]; intros rest.
  - discriminate.
  - cbn [ask]. unfold check_answer.
    destruct (map upper (filter is_alpha (strip line))) as [|c l] eqn:El.
    + specialize (IH rest).
           now destruct (ask q chs true inputs).
    + destruct (negb (issubset (c :: l) (map fst chs))).
      * specialize (IH rest).
           now destruct (ask q chs true inputs).
      * destruct (length (set_of (c :: l)) =? expected_count q) eqn:En;
          cbn [negb].
        -- cbn [snd]. intros E. injection E as E _.
           apply set_eqb_cardinal in E. apply Nat.eqb_eq in En. congruence.
        -- specialize (IH rest).
           now destruct (ask q chs true inputs).
Qed.

(** C10. A question whose [choose_n] is at least 2 and differs from the
    number of distinct correct letters is never scored correct, whatever
    lines the user enters. *)
Theorem mismatched_choose_n_never_correct :
  forall (q : Question) (chs : list (ascii * str)) (inputs : list str)
         (n : nat),
    choose_n q = Some n ->
    2 <= n ->
    n <> length (set_of (correct_letters q)) ->
    forall rest, snd (ask_question q chs inputs) <> Answer true rest.
Proof.
  intros q chs inputs n Hn Hge Hne rest.
  unfold ask_question. rewrite (infer_choose_n_set q n Hn).
  assert (Hm : is_multi q = true).
  { unfold is_multi. rewrite Hn.
    replace (1 <? n) with true by (symmetry; apply Nat.ltb_lt; lia).
    reflexivity. }
  rewrite Hm. apply ask_never_correct; [assumption|].
  unfold expected_count. rewrite Hn. destruct n; [lia | assumption].
Qed.

(** ** The comparison with 0.7 *)

Section PassDecision.

Local Open Scope Z_scope.

Lemma pow2_nonneg (k : Z) : 0 <= k -> pow2 k = 2 ^ k.
Proof. intros H. unfold pow2. now rewrite Z.max_r. Qed.

Lemma pow2_nonpos (k : Z) : k <= 0 -> pow2 k = 1.
Proof. intros H. unfold pow2. now rewrite Z.max_l. Qed.

Lemma quotient_exponent_le (c t : Z) :
  0 < c <= t ->
  exists j, 0 <= j /\ quotient_exponent c t = - j
            /\ t <= c * 2 ^ j < 2 * t.
Proof.
  intros [Hc Hct].
  assert (Ht : 0 < t) by lia.
  pose proof (Z.log2_spec c Hc) as [Hc1 Hc2].
  pose proof (Z.log2_spec t Ht) as [Ht1 Ht2].
  pose proof (Z.log2_le_mono c t Hct) as Hl.
  pose proof (Z.log2_nonneg c) as Hlc.
  set (lc := Z.log2 c) in *. set (lt := Z.log2 t) in *.
  unfold quotient_exponent. fold lc lt.
  set (j0 := lt - lc).
  assert (Hj0 : 0 <= j0) by (unfold j0; lia).
  replace (lc - lt) with (- j0) by (unfold j0; lia).
  rewrite pow2_nonpos by lia.
  replace (- - j0) with j0 by lia.
  rewrite pow2_nonneg by lia.
  assert (Hp : 2 ^ lt = 2 ^ lc * 2 ^ j0).
  { rewrite <- Z.pow_add_r by lia. f_equal. unfold j0. lia. }
  assert (Hs : 2 ^ (lt + 1) = 2 * 2 ^ lt).
  { rewrite Z.pow_add_r by lia. lia. }
  replace (Z.succ lt) with (lt + 1) in Ht2 by lia.
  replace (Z.succ lc) with (lc + 1) in Hc2 by lia.
  assert (Hs' : 2 ^ (lc + 1) = 2 * 2 ^ lc).
  { rewrite Z.pow_add_r by lia. lia. }
  assert (Hpos : 0 < 2 ^ j0) by (apply Z.pow_pos_nonneg; lia).
  destruct (t * 1 <=? c * 2 ^ j0) eqn:E.
  - apply Z.leb_le in E. exists j0. repeat split; try lia.
    nia.
  - apply Z.leb_gt in E. exists (j0 + 1). 
    rewrite Z.pow_add_r by lia.
    repeat split; try lia. nia.
Qed.

Lemma float_0_7_value :
  float_0_7 = {| fmant := 6305039478318694; fexp := -53 |}.
Proof. vm_compute. reflexivity. Qed.

(** The comparison [correct/total >= 0.7], with the mantissa and the
    exponent of the quotient written out. *)
Lemma true_divide_le (c t : Z) :
  0 < c <= t ->
  exists j q r,
    0 <= j /\ t <= c * 2 ^ j < 2 * t
    /\ c * 2 ^ j * 2 ^ 52 = t * q + r /\ 0 <= r < t /\ 0 <= q
    /\ true_divide c t =
         {| fmant := if (t <? 2 * r) || ((t =? 2 * r) && Z.odd q)
                     then q + 1 else q;
            fexp := - j - 52 |}.
Proof.
  intros Hct.
  destruct (quotient_exponent_le c t Hct) as [j [Hj [He Hb]]].
  set (num := c * 2 ^ j * 2 ^ 52).
  exists j, (num / t), (num mod t).
  assert (Ht : 0 < t) by lia.
  split; [assumption|]. split; [assumption|].
  split; [apply Z.div_mod; lia|].
  split; [apply Z.mod_pos_bound; lia|].
  split; [apply Z.div_pos; unfold num; nia|].
  unfold true_divide. rewrite He.
  replace (c =? 0) with false by (symmetry; apply Z.eqb_neq; lia).
  replace (52 - - j) with (j + 52) by lia.
  replace (- j - 52) with (- (j + 52)) by lia.
  rewrite (pow2_nonneg (j + 52)), (pow2_nonpos (- (j + 52))) by lia.
  rewrite Z.pow_add_r by lia.
  rewrite Z.mul_1_r, Z.mul_assoc. fold num. reflexivity.
Qed.

Lemma pass_decision (c t : Z) :
  0 <= c <= t -> 0 < t <= 10 ^ 15 ->
  float_ge (true_divide c t) float_0_7 = true <-> 7 * t <= 10 * c.
Proof.
  intros Hc Ht. rewrite float_0_7_value.
  destruct (Z.eq_dec c 0) as [-> | Hc0].
  { split; [vm_compute; discriminate | intros; exfalso; lia]. }
  destruct (true_divide_le c t) as [j [q [r [Hj [Hb [Hd [Hr [Hq0 ->]]]]]]]];
    [lia|].
  set (up := (t <? 2 * r) || ((t =? 2 * r) && Z.odd q)).
  assert (Hup : up = true -> t <= 2 * r).
  { unfold up. rewrite orb_true_iff, andb_true_iff, Z.ltb_lt, Z.eqb_eq.
    lia. }
  set (m := if up then q + 1 else q).
  assert (Hm : q <= m <= q + 1) by (unfold m; destruct up; lia).
  assert (Hm1 : m = q + 1 -> t <= 2 * r).
  { unfold m. destruct up; [auto | lia]. }
  unfold float_ge. cbn [fmant fexp]. rewrite Z.leb_le.
  change (10 ^ 15) with 1000000000000000 in Ht.
  change (2 ^ 52) with 4503599627370496 in Hd.
  destruct (Z.eq_dec j 0) as [-> | Hj0].
  - (* the quotient is 1 *)
    change (2 ^ 0) with 1 in *.
    assert (c = t) by lia. subst c.
    assert (q = 4503599627370496) by nia.
    rewrite Z.min_r by lia.
    replace (-53 - -53) with 0 by lia.
    replace (- 0 - 52 - -53) with 1 by lia.
    change (2 ^ 0) with 1. change (2 ^ 1) with 2. lia.
  - destruct (Z.eq_dec j 1) as [-> | Hj1].
    + (* the quotient lies in [1/2, 1) *)
      change (2 ^ 1) with 2 in *.
      rewrite Z.min_r by lia.
      replace (-53 - -53) with 0 by lia.
      replace (- 1 - 52 - -53) with 0 by lia.
      change (2 ^ 0) with 1.
      split; intros H.
      * destruct (Z_le_gt_dec 6305039478318694 q) as [Hq | Hq].
        -- assert (t * 6305039478318694 <= t * q)
             by (apply Z.mul_le_mono_nonneg_l; lia).
           lia.
        -- assert (q = 6305039478318693) by lia. subst q.
           assert (t <= 2 * r) by (apply Hm1; lia). lia.
      * assert (6305039478318694 <= q); [|lia].
        destruct (Z_le_gt_dec 6305039478318694 q) as [Hq | Hq]; [lia|].
        assert (t * q <= t * 6305039478318693)
          by (apply Z.mul_le_mono_nonneg_l; lia).
        lia.
    + (* the quotient is below 1/2 *)
      assert (Hj2 : 2 <= j) by lia.
      assert (H4 : 2 ^ 2 <= 2 ^ j) by (apply Z.pow_le_mono_r; lia).
      change (2 ^ 2) with 4 in H4.
      rewrite Z.min_l by lia.
      replace (- j - 52 - (- j - 52)) with 0 by lia.
      replace (-53 - (- j - 52)) with (j - 1) by lia.
      assert (H2 : 2 ^ 1 <= 2 ^ (j - 1)) by (apply Z.pow_le_mono_r; lia).
      change (2 ^ 1) with 2 in H2. change (2 ^ 0) with 1.
      assert (Hq : q < 9007199254740992).
      { destruct (Z_lt_le_dec q 9007199254740992) as [?|Hge]; [assumption|].
        assert (t * 9007199254740992 <= t * q)
          by (apply Z.mul_le_mono_nonneg_l; lia).
        lia. }
      split; intros H; [|nia].
      exfalso. lia.
Qed.

(** Above that bound the two can part: the binary64 quotient of
    13999999999999999 by 20000000000000000 is the binary64 number 0.7. *)
Lemma pass_decision_beyond_precision :
  float_ge (true_divide (14 * 10 ^ 15 - 1) (2 * 10 ^ 16)) float_0_7 = true
  /\ 10 * (14 * 10 ^ 15 - 1) < 7 * (2 * 10 ^ 16).
Proof.
  split; [vm_compute; reflexivity | lia].
Qed.

End PassDecision.

(** ** The session loop *)

Lemma check_answer_retry_dialogue (q : Question) (chs : list (ascii * str))
  (multi : bool) (line : str) (msg : printed) :
  check_answer q chs multi line = Retry msg -> is_dialogue msg = true.
Proof.
  unfold check_answer.
  destruct (map upper (filter is_alpha (strip line))) as [|c l].
  - now intros [= <-].
  - destruct (negb (issubset (c :: l) (map fst chs))).
    + now intros [= <-].
    + destruct multi.
      * destruct (negb (length (set_of (c :: l)) =? expected_count q)).
        -- now intros [= <-].
        -- discriminate.
      * destruct (correct_letters q); discriminate.
Qed.

Lemma check_answer_fails (q : Question) (chs : list (ascii * str))
  (multi : bool) (line : str) (e : exn) :
  check_answer q chs multi line = Fails e -> e = IndexError.
Proof.
  unfold check_answer.
  destruct (map upper (filter is_alpha (strip line))) as [|c l];
    [discriminate|].
  destruct (negb (issubset (c :: l) (map fst chs))); [discriminate|].
  destruct multi.
  - destruct (negb (length (set_of (c :: l)) =? expected_count q));
      discriminate.
  - destruct (correct_letters q); [now intros [= <-] | discriminate].
Qed.

Lemma ask_dialogue (q : Question) (chs : list (ascii * str)) (multi : bool)
  (inputs : list str) :
  Forall (fun p => is_dialogue p = true) (fst (ask q chs multi inputs)).
Proof.
  induction inputs as [|line inputs IH]; cbn [ask].
  - repeat constructor.
  - destruct (check_answer q chs multi line) as [msg|b|e] eqn:Ec.
    + destruct (ask q chs multi inputs) as [o r]. cbn [fst] in *.
      constructor; [reflexivity|]. constructor; [|assumption].
      now apply check_answer_retry_dialogue in Ec.
    + repeat constructor.
    + repeat constructor.
Qed.


Lemma ask_error (q : Question) (chs : list (ascii * str)) (multi : bool)
  (inputs : list str) (out : list printed) (e : exn) :
  ask q chs multi inputs = (out, Error e) -> e = IndexError.
Proof.
  revert out. induction inputs as [|line inputs IH]; intros out; cbn [ask].
  - discriminate.
  - destruct (check_answer q chs multi line) as [msg|b|e'] eqn:Ec.
    + destruct (ask q chs multi inputs) as [o r].
      intros [= <- ->]. now apply (IH o).
    + discriminate.
    + intros [= _ <-]. now apply check_answer_fails in Ec.
Qed.



Lemma flat_map_nil {A B : Type} (f : A -> list B) (l : list A) :
  Forall (fun x => f x = []) l -> flat_map f l = [].
Proof.
  induction 1 as [|x l Hx _ IH]; cbn; [reflexivity | now rewrite Hx, IH].
Qed.

Lemma dialogue_no_header (out : list printed) :
  Forall (fun p => is_dialogue p = true) out ->
  header_lines out = [] /\ text_lines out = [].
Proof.
  intros H. split; apply flat_map_nil; revert H; apply Forall_impl;
    now intros [].
Qed.

Lemma choice_lines_no_header (chs : list (ascii * str)) :
  header_lines (map (fun p => PChoice (fst p) (snd p)) chs) = []
  /\ text_lines (map (fun p => PChoice (fst p) (snd p)) chs) = [].
Proof.
  split; apply flat_map_nil; apply Forall_map, Forall_forall; reflexivity.
Qed.


Section SessionFacts.

Variable rng : Type.
Variable random_shuffle : forall A : Type, list A -> rng -> list A * rng.

Let loop := quiz_loop rng random_shuffle.


(** A session that reaches its end has printed the summary last, and
    nowhere else; its count of correct answers is at most the number of
    questions. *)
Lemma quiz_loop_finished (shuffle_choices : bool) (total : nat)
  (qs : list Question) :
  forall (idx : nat) (st : counters) (g : rng) (inputs : list str),
    let r := loop shuffle_choices total idx qs st g inputs in
    final r = Finished ->
    0 < total
    /\ correct st <= correct (score r) <= correct st + length qs
    /\ exists o,
        output r
        = o ++ output (final_part (correct (score r)) total (score r))
        /\ Forall (fun p => is_summary p = false) o.
Proof.
  unfold loop.
  induction qs as [|q qs IH]; intros idx st g inputs; cbn [quiz_loop].
  - cbn zeta. unfold final_part. destruct total; [discriminate|].
    cbn [final score output length]. intros _.
    split; [lia|]. split; [lia|]. exists []. split; [reflexivity|constructor].
  - destruct (shuffle_if rng random_shuffle shuffle_choices (choices q) g)
      as [chs g'].
    destruct (ask_question q chs inputs) as [out [| b rest | e]] eqn:Ea;
      cbn zeta; cbn [final output score prepend]; intros Hf;
      try discriminate.
    destruct (IH _ _ _ _ Hf) as [Ht [Hc [o [Ho Hs]]]].
    cbn [correct length] in *.
    split; [assumption|]. split; [destruct b; lia|].
    rewrite Ho. eexists. rewrite app_assoc. split; [reflexivity|].
    unfold ask_question in Ea.
    pose proof (ask_dialogue (infer_choose_n q) chs
                  (is_multi (infer_choose_n q)) inputs) as Hd.
    rewrite Ea in Hd. cbn [fst] in Hd.
    apply Forall_app. split; [|assumption].
    rewrite <- ?app_assoc. cbn [app].
    constructor; [reflexivity|]. constructor; [reflexivity|].
    repeat (apply Forall_app; split).
    + apply Forall_map, Forall_forall. reflexivity.
    + revert Hd. apply Forall_impl. now intros [].
    + destruct b; repeat constructor.
    + repeat constructor.
Qed.

(** The headers and texts printed are those of the first [k] questions,
    and of all of them when the loop is left at its end. *)
Lemma quiz_loop_headers (shuffle_choices : bool) (total : nat)
  (qs : list Question) :
  forall (idx : nat) (st : counters) (g : rng) (inputs : list str),
    let r := loop shuffle_choices total idx qs st g inputs in
    exists k,
      k <= length qs
      /\ header_lines (output r) = map (fun i => (i, total)) (seq idx k)
      /\ text_lines (output r) = map text (firstn k qs)
      /\ (final r = Finished \/ final r = Raised ZeroDivisionError ->
          k = length qs).
Proof.
  unfold loop.
  induction qs as [|q qs IH]; intros idx st g inputs; cbn [quiz_loop].
  - cbn zeta. exists 0. unfold final_part, header_lines, text_lines.
    destruct total;
      cbn [output final flat_map app length seq map firstn];
      [|destruct (float_ge _ _)]; repeat split; auto.
  - destruct (shuffle_if rng random_shuffle shuffle_choices (choices q) g)
      as [chs g'].
    destruct (choice_lines_no_header chs) as [Hch Hct].
    pose proof (ask_dialogue (infer_choose_n q) chs
                  (is_multi (infer_choose_n q)) inputs) as Hd.
    destruct (ask_question q chs inputs) as [out [| b rest | e]] eqn:Ea;
      unfold ask_question in Ea; rewrite Ea in Hd; cbn [fst] in Hd;
      destruct (dialogue_no_header out Hd) as [Hoh Hot];
      cbn zeta; cbn [final output score prepend].
    + exists 1. cbn [length seq map firstn].
      unfold header_lines, text_lines in *. cbn [flat_map app].
      rewrite !flat_map_app, ?Hch, ?Hct, ?Hoh, ?Hot. cbn [app].
      repeat split; try lia; try reflexivity.
      intros [H|H]; discriminate.
    + destruct (IH (idx + 1) {| correct := if b then correct st + 1
                                           else correct st;
                                running_total := running_total st + 1 |}
                  g' rest) as [k [Hk [Hh [Ht Hf]]]].
      exists (S k). cbn [length seq map firstn].
      unfold header_lines, text_lines in *. cbn [flat_map app].
      rewrite !flat_map_app, ?Hch, ?Hct, ?Hoh, ?Hot. cbn [app].
      replace (S idx) with (idx + 1) by lia.
      rewrite Hh, Ht.
      destruct b; cbn [flat_map app];
        (split; [lia|]; split; [reflexivity|]; split; [reflexivity|];
         intros H; f_equal; now apply Hf).
    + exists 1. cbn [length seq map firstn].
      unfold header_lines, text_lines in *. cbn [flat_map app].
      rewrite !flat_map_app, ?Hch, ?Hct, ?Hoh, ?Hot. cbn [app].
      repeat split; try lia; try reflexivity.
      apply ask_error in Ea. subst e.
      intros [H|H]; discriminate.
Qed.

End SessionFacts.

(** ** The end of the input *)



(** ** An empty session *)

(** C9. When no question is left for the loop, because the list is empty
    or because the limit has cut all of it, the call prints the final
    score line "Your final score: 0/0" and then raises
    [ZeroDivisionError] instead of returning: the division is not
    guarded. *)
Theorem empty_session_divides_by_zero :
  forall (rng : Type) (random_seed : Z -> rng)
         (random_shuffle : forall A : Type, list A -> rng -> list A * rng)
         (qs : list Question) (shuffle_questions shuffle_choices : bool)
         (limit seed : option Z) (g : rng) (inputs : list str),
    fst (session_questions rng random_seed random_shuffle qs
           shuffle_questions limit seed g) = [] ->
    let r := run_quiz rng random_seed random_shuffle qs shuffle_questions
               shuffle_choices limit seed g inputs in
    output r = [PFinalScore 0 0]
    /\ line_text (PFinalScore 0 0)
       = Some ("010"%char :: lit "Your final score: 0/0")
    /\ final r = Raised ZeroDivisionError.
Proof.
  intros rng random_seed random_shuffle qs sq sc limit seed g inputs.
  cbn zeta. unfold run_quiz.
  destruct (session_questions rng random_seed random_shuffle qs sq limit
              seed g) as [qs' g'].
  cbn [fst]. intros ->. cbn. auto.
Qed.

(** The limit 0 on the canonical questions, and the empty list. *)
Lemma empty_session_divides_by_zero_witness :
  (output (run_plain [canonical_q1; canonical_q2] (Some 0%Z) [lit "A"])
   = [PFinalScore 0 0]
   /\ line_text (PFinalScore 0 0)
      = Some ("010"%char :: lit "Your final score: 0/0")
   /\ final (run_plain [canonical_q1; canonical_q2] (Some 0%Z) [lit "A"])
      = Raised ZeroDivisionError)
  /\ final (run_plain [] None []) = Raised ZeroDivisionError.
Proof.
  split.
  - exact (empty_session_divides_by_zero unit (fun _ => tt) no_shuffle
             [canonical_q1; canonical_q2] false false (Some 0%Z) None tt
             [lit "A"] eq_refl).
  - exact (proj2 (proj2 (empty_session_divides_by_zero unit (fun _ => tt)
                           no_shuffle [] false false None None tt []
                           eq_refl))).
Defined.

(** ** The limit *)

Lemma slice_to_nonneg {A : Type} (limit : Z) (l : list A) :
  (0 <= limit)%Z ->
  slice_to limit l = firstn (Nat.min (Z.to_nat limit) (length l)) l.
Proof.
  intros H. unfold slice_to.
  replace (limit <? 0)%Z with false by (symmetry; apply Z.ltb_ge; lia).
  f_equal. lia.
Qed.

Lemma slice_to_negative {A : Type} (limit : Z) (l : list A) :
  (limit < 0)%Z ->
  slice_to limit l = firstn (length l - Z.to_nat (- limit)) l.
Proof.
  intros H. unfold slice_to.
  replace (limit <? 0)%Z with true by (symmetry; apply Z.ltb_lt; lia).
  f_equal. lia.
Qed.

(** C7, as the code has it.  With a limit that is not negative, the
    session runs on the first [min limit length] questions of the
    sequence that the optional shuffle has left: every header shows that
    number as the total, and the questions displayed are, in order, the
    first [k] of them, all of them when the loop is left at its end. *)
Theorem limit_truncates_session :
  forall (rng : Type) (random_seed : Z -> rng)
         (random_shuffle : forall A : Type, list A -> rng -> list A * rng)
         (qs : list Question) (shuffle_questions shuffle_choices : bool)
         (limit : Z) (seed : option Z) (g : rng) (inputs : list str),
    (0 <= limit)%Z ->
    let shuffled :=
      fst (session_questions rng random_seed random_shuffle qs
             shuffle_questions None seed g) in
    let n := Nat.min (Z.to_nat limit) (length shuffled) in
    let r := run_quiz rng random_seed random_shuffle qs shuffle_questions
               shuffle_choices (Some limit) seed g inputs in
    fst (session_questions rng random_seed random_shuffle qs
           shuffle_questions (Some limit) seed g) = firstn n shuffled
    /\ exists k,
        k <= n
        /\ header_lines (output r) = map (fun i => (i, n)) (seq 1 k)
        /\ text_lines (output r) = map text (firstn k shuffled)
        /\ (final r = Finished \/ final r = Raised ZeroDivisionError ->
            k = n).
Proof.
  intros rng random_seed random_shuffle qs sq sc limit seed g inputs Hl.
  cbn zeta. unfold run_quiz, session_questions.
  destruct (shuffle_if rng random_shuffle sq qs
              match seed with Some s => random_seed s | None => g end)
    as [shuffled g'].
  cbn [fst]. rewrite (slice_to_nonneg limit shuffled Hl).
  set (n := Nat.min (Z.to_nat limit) (length shuffled)).
  split; [reflexivity|].
  assert (Hn : length (firstn n shuffled) = n)
    by (rewrite length_firstn; unfold n; lia).
  rewrite Hn.
  destruct (quiz_loop_headers rng random_shuffle sc n (firstn n shuffled) 1
              {| correct := 0; running_total := 0 |} g' inputs)
    as [k [Hk [Hh [Ht Hf]]]].
  rewrite Hn in Hk, Hf.
  exists k. split; [assumption|]. split; [assumption|].
  split; [|assumption].
  rewrite Ht, firstn_firstn. now rewrite Nat.min_l.
Qed.

(** The canonical questions with the limit 1: one question is asked, and
    its header says "Question 1 of 1". *)
Lemma limit_truncates_session_witness :
  fst (session_questions unit (fun _ => tt) no_shuffle
         [canonical_q1; canonical_q2] false (Some 1%Z) None tt)
  = [canonical_q1]
  /\ exists k,
      k <= 1
      /\ header_lines
           (output (run_plain [canonical_q1; canonical_q2] (Some 1%Z)
                      [lit "A"]))
         = map (fun i => (i, 1)) (seq 1 k)
      /\ text_lines
           (output (run_plain [canonical_q1; canonical_q2] (Some 1%Z)
                      [lit "A"]))
         = map text (firstn k [canonical_q1; canonical_q2])
      /\ (final (run_plain [canonical_q1; canonical_q2] (Some 1%Z)
                   [lit "A"]) = Finished
          \/ final (run_plain [canonical_q1; canonical_q2] (Some 1%Z)
                      [lit "A"]) = Raised ZeroDivisionError ->
          k = 1).
Proof.
  apply (limit_truncates_session unit (fun _ => tt) no_shuffle
           [canonical_q1; canonical_q2] false false 1%Z None tt [lit "A"]).
  lia.
Defined.

(** C7 as stated fails for a negative limit: with the limit -1 the slice
    drops the last question, so one of the two canonical questions is
    asked, which is not a prefix of length [min (-1) 2]. *)
Lemma negative_limit_drops_last :
  fst (session_questions unit (fun _ => tt) no_shuffle
         [canonical_q1; canonical_q2] false (Some (-1)%Z) None tt)
  = [canonical_q1]
  /\ header_lines
       (output (run_plain [canonical_q1; canonical_q2] (Some (-1)%Z)
                  [lit "A"]))
     = [(1, 1)]
  /\ Z.of_nat
       (length
          (fst (session_questions unit (fun _ => tt) no_shuffle
                  [canonical_q1; canonical_q2] false (Some (-1)%Z) None tt)))
     <> Z.min (-1) (Z.of_nat (length [canonical_q1; canonical_q2])).
Proof.
  split; [reflexivity|]. split; [reflexivity|]. discriminate.
Qed.

(** ** The pass threshold *)

Lemma pass_decision_nat (c n : nat) :
  c <= n -> 0 < n -> (Z.of_nat n <= 10 ^ 15)%Z ->
  float_ge (true_divide (Z.of_nat c) (Z.of_nat n)) float_0_7 = true
  <-> 7 * n <= 10 * c.
Proof.
  intros Hc Hn Hb. rewrite pass_decision by lia. lia.
Qed.

(** C6. A session that reaches its end (which takes at least one
    question), on at most 10^15 questions, prints the final score [C/N]
    and then the pass message exactly when [C/N >= 0.7], that is when
    [7 * N <= 10 * C], and the other message exactly when it is below.
    The comparison is the program's: the binary64 quotient against the
    binary64 number 0.7. *)
Theorem pass_threshold :
  forall (rng : Type) (random_seed : Z -> rng)
         (random_shuffle : forall A : Type, list A -> rng -> list A * rng)
         (qs : list Question) (shuffle_questions shuffle_choices : bool)
         (limit seed : option Z) (g : rng) (inputs : list str),
    let r := run_quiz rng random_seed random_shuffle qs shuffle_questions
               shuffle_choices limit seed g inputs in
    let N := length (fst (session_questions rng random_seed random_shuffle
                            qs shuffle_questions limit seed g)) in
    let C := correct (score r) in
    final r = Finished ->
    (Z.of_nat N <= 10 ^ 15)%Z ->
    0 < N /\ C <= N
    /\ In (PFinalScore C N) (output r)
    /\ ((exists f, In (PPassed f) (output r)) <-> 7 * N <= 10 * C)
    /\ (In PNotPassed (output r) <-> 10 * C < 7 * N).
Proof.
  intros rng random_seed random_shuffle qs sq sc limit seed g inputs.
  cbn zeta. unfold run_quiz.
  destruct (session_questions rng random_seed random_shuffle qs sq limit
              seed g) as [qs' g'].
  cbn [fst]. intros Hf Hb.
  destruct (quiz_loop_finished rng random_shuffle sc (length qs') qs' 1
              {| correct := 0; running_total := 0 |} g' inputs Hf)
    as [Hn [Hc [o [Ho Hs]]]].
  cbn [correct] in Hc.
  set (r := quiz_loop rng random_shuffle sc (length qs') 1 qs'
              {| correct := 0; running_total := 0 |} g' inputs) in *.
  set (C := correct (score r)) in *. set (N := length qs') in *.
  assert (HC : C <= N) by lia.
  pose proof (pass_decision_nat C N HC Hn Hb) as Hd.
  assert (Ho' : forall p, is_summary p = true -> ~ In p o).
  { intros p Hp Hin. rewrite Forall_forall in Hs.
    specialize (Hs p Hin). congruence. }
  unfold final_part in Ho. destruct N as [|N'] eqn:EN; [lia|].
  cbn [output] in Ho. rewrite Ho.
  split; [lia|]. split; [assumption|].
  split; [apply in_or_app; right; now left|].
  destruct (float_ge (true_divide (Z.of_nat C) (Z.of_nat (S N'))) float_0_7).
  - split; split.
    + intros _. now apply Hd.
    + intros _. eexists. apply in_or_app. right. right. now left.
    + intros Hin. apply in_app_or in Hin. destruct Hin as [Hin|Hin].
      * now apply Ho' in Hin.
      * destruct Hin as [E|[E|[]]]; discriminate.
    + intros Hlt. assert (7 * S N' <= 10 * C) by now apply Hd. lia.
  - split; split.
    + intros [f Hin]. apply in_app_or in Hin. destruct Hin as [Hin|Hin].
      * now apply Ho' in Hin.
      * destruct Hin as [E|[E|[]]]; discriminate.
    + intros Hle. apply Hd in Hle. discriminate.
    + intros _. destruct (Nat.lt_ge_cases (10 * C) (7 * S N')) as [?|Hge];
        [assumption|]. apply Hd in Hge. discriminate.
    + intros _. apply in_or_app. right. right. now left.
Qed.

(** Seven right answers out of ten pass, six do not. *)
Lemma pass_threshold_witness :
  (exists f, In (PPassed f) (output (run_plain ten_questions None
                                       (answers 7 3))))
  /\ ~ In PNotPassed (output (run_plain ten_questions None (answers 7 3)))
  /\ In (PFinalScore 7 10) (output (run_plain ten_questions None
                                      (answers 7 3)))
  /\ In PNotPassed (output (run_plain ten_questions None (answers 6 4)))
  /\ In (PFinalScore 6 10) (output (run_plain ten_questions None
                                      (answers 6 4))).
Proof.
  destruct (pass_threshold unit (fun _ => tt) no_shuffle ten_questions
              false false None None tt (answers 7 3) eq_refl)
    as [_ [_ [H7 [H7p H7n]]]]; [vm_compute; discriminate|].
  destruct (pass_threshold unit (fun _ => tt) no_shuffle ten_questions
              false false None None tt (answers 6 4) eq_refl)
    as [_ [_ [H6 [_ H6n]]]]; [vm_compute; discriminate|].
  split; [apply H7p; vm_compute; lia|].
  split; [intros H; apply H7n in H; vm_compute in H; lia|].
  split; [exact H7|].
  split; [apply H6n; vm_compute; lia | exact H6].
Defined.

(** ** The canonical document *)

(** C3. The canonical document (nine lines: two question lines, five
    choice lines and two answer lines) parses to exactly two questions in
    document order: the first with [choose_n = 1], the correct letters
    [A] and two choices, the second with [choose_n = 2], the correct
    letters [A; C] and three choices. *)
Theorem parse_canonical_document :
  length (splitlines canonical_document) = 9
  /\ parse_markdown_exam_text canonical_document
     = [canonical_q1; canonical_q2]
  /\ choose_n canonical_q1 = Some 1
  /\ correct_letters canonical_q1 = ["A"%char]
  /\ length (choices canonical_q1) = 2
  /\ choose_n canonical_q2 = Some 2
  /\ correct_letters canonical_q2 = ["A"%char; "C"%char]
  /\ length (choices canonical_q2) = 3.
Proof.
  split; [reflexivity|]. split; [vm_compute; reflexivity|].
  repeat split.
Qed.

(** ** A question without an answer line *)

(** In multi-select mode an empty list of correct letters makes every
    accepted line incorrect. *)
Lemma multi_select_without_answer (q : Question)
  (chs : list (ascii * str)) (line : str) (b : bool) :
  correct_letters q = [] ->
  check_answer q chs true line = Scored b -> b = false.
Proof.
  intros Hc. unfold check_answer. rewrite Hc.
  destruct (map upper (filter is_alpha (strip line))) as [|c l];
    [discriminate|].
  destruct (negb (issubset (c :: l) (map fst chs))); [discriminate|].
  destruct (negb (length (set_of (c :: l)) =? expected_count q));
    [discriminate|].
  intros [= <-]. reflexivity.
Qed.

(** In single-select mode it makes the first line that passes the checks
    raise [IndexError]. *)
Lemma single_select_without_answer (q : Question)
  (chs : list (ascii * str)) (line : str) :
  correct_letters q = [] ->
  letters_of line <> [] ->
  issubset (letters_of line) (map fst chs) = true ->
  check_answer q chs false line = Fails IndexError.
Proof.
  intros Hc Hl Hs. unfold check_answer. fold (letters_of line).
  rewrite Hs, Hc. destruct (letters_of line); [contradiction | reflexivity].
Qed.

(** C1 fails on the code.  The question of [unanswered_document] has two
    choices and no answer line: the parser emits it with no correct
    letter, and the session that asks it raises [IndexError] on the
    answer "A" instead of scoring it incorrect. *)
Theorem unanswered_question_raises :
  parse_markdown_exam_text unanswered_document = [unanswered_q]
  /\ correct_letters unanswered_q = []
  /\ run_plain (parse_markdown_exam_text unanswered_document) None
       [lit "A"]
     = {| output := [PHeader 1 1; PText (lit "What is S3?");
                     PChoice "A" (lit "Storage");
                     PChoice "B" (lit "Compute"); PPrompt];
          final := Raised IndexError;
          score := {| correct := 0; running_total := 1 |} |}.
Proof.
  split; [vm_compute; reflexivity|]. split; [reflexivity|].
  vm_compute. reflexivity.
Qed.

(** The question of C10 at work: [mismatched_q] asks for two letters and
    has one correct letter. *)
Lemma mismatched_choose_n_never_correct_witness :
  snd (ask_question mismatched_q (choices mismatched_q)
         [lit "A"; lit "AB"]) <> Answer true [].
Proof.
  apply (mismatched_choose_n_never_correct mismatched_q
           (choices mismatched_q) [lit "A"; lit "AB"] 2 eq_refl).
  - lia.
  - cbn. lia.
Defined.

(** ** Counterexamples *)


(** C2 as stated fails: the first pass joins the two halves of an entity
    fragment, and the second pass removes it. *)
Lemma clean_question_text_not_idempotent :
  clean_question_text (lit "&lt;&lt;a&gt;&gt;") = lit "&lt;&gt;"
  /\ clean_question_text (clean_question_text (lit "&lt;&lt;a&gt;&gt;"))
     = []
  /\ clean_question_text (clean_question_text (lit "&lt;&lt;a&gt;&gt;"))
     <> clean_question_text (lit "&lt;&lt;a&gt;&gt;").
Proof.
  split; [vm_compute; reflexivity|]. split; [vm_compute; reflexivity|].
  vm_compute. discriminate.
Qed.

(** ** The sanitizer *)

Lemma sub_from_skipn (m : str -> option nat) (repl : str) (s : str) :
  forall k, sub_from m repl k s = sub_from m repl 0 (skipn k s).
Proof.
  induction s as [|c s IH]; intros [|k]; try reflexivity.
  cbn [sub_from skipn]. apply IH.
Qed.

Lemma skipn_take_while (f : ascii -> bool) (s : str) :
  skipn (length (take_while f s)) s = drop_while f s.
Proof.
  induction s as [|c s IH]; [reflexivity|].
  cbn [take_while drop_while]. destruct (f c); [exact IH | reflexivity].
Qed.

Lemma collapse_cons (c : ascii) (s : str) :
  collapse (c :: s)
  = if is_space c then " "%char :: collapse (lstrip s) else c :: collapse s.
Proof.
  unfold collapse, re_sub. cbn [sub_from]. unfold WHITESPACE_RE.
  cbn [take_while]. destruct (is_space c); [|reflexivity].
  cbn [length app]. rewrite sub_from_skipn, skipn_take_while. reflexivity.
Qed.

Lemma drop_while_length (f : ascii -> bool) (s : str) :
  length (drop_while f s) <= length s.
Proof.
  induction s as [|c s IH]; [reflexivity|].
  cbn [drop_while]. destruct (f c); cbn [length]; lia.
Qed.

Lemma drop_while_head (f : ascii -> bool) (s : str) :
  match drop_while f s with [] => True | d :: _ => f d = false end.
Proof.
  induction s as [|c s IH]; [exact I|].
  cbn [drop_while]. destruct (f c) eqn:E; [exact IH | exact E].
Qed.

Lemma drop_while_id (f : ascii -> bool) (s : str) :
  match s with [] => True | d :: _ => f d = false end ->
  drop_while f s = s.
Proof.
  destruct s as [|d s]; [reflexivity|]. cbn [drop_while]. now intros ->.
Qed.

Lemma collapse_single_spaced (s : str) : single_spaced (collapse s) = true.
Proof.
  remember (length s) as n eqn:En.
  assert (Hn : length s <= n) by lia. clear En. revert s Hn.
  induction n as [|n IH]; intros [|c s] Hn; try reflexivity;
    cbn [length] in Hn; [lia|].
  rewrite collapse_cons. destruct (is_space c) eqn:Ec.
  - cbn [single_spaced]. change (is_space " "%char) with true. cbv iota.
    change (Ascii.eqb " "%char " "%char) with true.
    rewrite IH
      by (pose proof (drop_while_length is_space s); unfold lstrip; lia).
    pose proof (drop_while_head is_space s) as Hh. unfold lstrip.
    destruct (drop_while is_space s) as [|d r]; [reflexivity|].
    rewrite collapse_cons, Hh. now rewrite Hh.
  - cbn [single_spaced]. rewrite Ec. apply IH. lia.
Qed.

Lemma single_spaced_collapse (s : str) :
  single_spaced s = true -> collapse s = s.
Proof.
  induction s as [|c s IH]; [reflexivity|].
  cbn [single_spaced]. rewrite collapse_cons.
  destruct (is_space c).
  - rewrite !andb_true_iff. intros [[Hc Hd] Hs].
    apply Ascii.eqb_eq in Hc. subst c. f_equal.
    unfold lstrip. rewrite drop_while_id; [now apply IH|].
    destruct s as [|d r]; [exact I|]. now apply negb_true_iff in Hd.
  - cbn [andb]. intros Hs. f_equal. now apply IH.
Qed.

Lemma single_spaced_suffix (a b : str) :
  single_spaced (a ++ b) = true -> single_spaced b = true.
Proof.
  induction a as [|c a IH]; [auto|].
  cbn [app single_spaced]. rewrite andb_true_iff. intros [_ H].
  now apply IH.
Qed.

Lemma single_spaced_prefix (a b : str) :
  single_spaced (a ++ b) = true -> single_spaced a = true.
Proof.
  induction a as [|c a IH]; [auto|].
  cbn [app single_spaced]. rewrite !andb_true_iff. intros [Hc Hs].
  split; [|now apply IH].
  destruct (is_space c); [|reflexivity].
  rewrite andb_true_iff in *. destruct Hc as [Hc Hd]. split; [assumption|].
  destruct a; [reflexivity | exact Hd].
Qed.

Lemma take_drop_while (f : ascii -> bool) (s : str) :
  s = take_while f s ++ drop_while f s.
Proof.
  induction s as [|c s IH]; [reflexivity|].
  cbn [take_while drop_while]. destruct (f c); [|reflexivity].
  cbn [app]. now f_equal.
Qed.

Lemma rstrip_prefix (s : str) : exists w, s = rstrip s ++ w.
Proof.
  exists (rev (take_while is_space (rev s))). unfold rstrip, lstrip.
  rewrite <- rev_app_distr, <- take_drop_while. now rewrite rev_involutive.
Qed.

Lemma single_spaced_strip (s : str) :
  single_spaced s = true -> single_spaced (strip s) = true.
Proof.
  intros H. unfold strip.
  destruct (rstrip_prefix (lstrip s)) as [w Hw].
  apply (single_spaced_prefix _ w). rewrite <- Hw.
  apply (single_spaced_suffix (take_while is_space s)).
  unfold lstrip. now rewrite <- take_drop_while.
Qed.

Lemma drop_while_snoc (f : ascii -> bool) (a : str) (h : ascii) :
  f h = false -> drop_while f (a ++ [h]) = drop_while f a ++ [h].
Proof.
  intros Hh. induction a as [|c a IH]; cbn [app drop_while].
  - now rewrite Hh.
  - destruct (f c); [exact IH | reflexivity].
Qed.

Lemma lstrip_idempotent (s : str) : lstrip (lstrip s) = lstrip s.
Proof.
  unfold lstrip. apply drop_while_id. apply drop_while_head.
Qed.

Lemma rstrip_idempotent (s : str) : rstrip (rstrip s) = rstrip s.
Proof.
  unfold rstrip. now rewrite rev_involutive, lstrip_idempotent.
Qed.

Lemma lstrip_rstrip_lstrip (s : str) :
  lstrip (rstrip (lstrip s)) = rstrip (lstrip s).
Proof.
  pose proof (drop_while_head is_space s) as Hh. unfold lstrip at 2 3.
  destruct (drop_while is_space s) as [|h u]; [reflexivity|].
  unfold rstrip, lstrip at 2 3. cbn [rev].
  rewrite (drop_while_snoc is_space (rev u) h Hh), rev_app_distr.
  cbn [rev app]. unfold lstrip. cbn [drop_while]. now rewrite Hh.
Qed.

Lemma strip_idempotent (s : str) : strip (strip s) = strip s.
Proof.
  unfold strip. now rewrite lstrip_rstrip_lstrip, rstrip_idempotent.
Qed.

(** The last step of the sanitizer, run twice, does what it does once. *)
Lemma normalize_idempotent (s : str) :
  strip (collapse (strip (collapse s))) = strip (collapse s).
Proof.
  rewrite (single_spaced_collapse (strip (collapse s))).
  - apply strip_idempotent.
  - apply single_spaced_strip, collapse_single_spaced.
Qed.

Lemma sub_never_matches (m : str -> option nat) (repl s : str) :
  never_matches m s = true -> re_sub m repl s = s.
Proof.
  unfold re_sub. induction s as [|c s IH]; [reflexivity|].
  cbn [never_matches sub_from].
  destruct (m (c :: s)); [discriminate|].
  intros H. f_equal. now apply IH.
Qed.

(** C2, as the code has it.  A second pass of the sanitizer changes
    nothing when the first pass has left no text that one of the four
    patterns matches. *)
Theorem clean_question_text_idempotent :
  forall x : str,
    no_fragment (clean_question_text x) = true ->
    clean_question_text (clean_question_text x) = clean_question_text x.
Proof.
  intros x. destruct x as [|c x]; [reflexivity|].
  set (y := clean_question_text (c :: x)).
  unfold no_fragment. rewrite !andb_true_iff.
  intros [[[H1 H2] H3] H4].
  destruct y as [|d y'] eqn:Ey; [reflexivity|].
  unfold clean_question_text at 1.
  rewrite (sub_never_matches _ _ _ H1), (sub_never_matches _ _ _ H2),
    (sub_never_matches _ _ _ H3), (sub_never_matches _ _ _ H4).
  rewrite <- Ey. unfold y, clean_question_text.
  apply normalize_idempotent.
Qed.

(** A prompt with a tag, an entity block and runs of spaces. *)
Lemma clean_question_text_idempotent_witness :
  clean_question_text
    (lit "  What <b>is</b>   S3? &lt;details&gt; x &lt;/details&gt; ")
  = lit "What is S3?"
  /\ clean_question_text
       (clean_question_text
          (lit "  What <b>is</b>   S3? &lt;details&gt; x &lt;/details&gt; "))
     = clean_question_text
         (lit "  What <b>is</b>   S3? &lt;details&gt; x &lt;/details&gt; ").
Proof.
  split; [reflexivity|].
  apply (clean_question_text_idempotent
           (lit "  What <b>is</b>   S3? &lt;details&gt; x &lt;/details&gt; ")).
  reflexivity.
Defined.

(** ** The choices of a parsed question *)

Lemma upper_of_upper (c : ascii) : is_upper c = true -> upper c = c.
Proof.
  unfold upper, is_upper, is_lower. intros H.
  apply andb_true_iff in H. destruct H as [H1 H2].
  apply Nat.leb_le in H1, H2.
  replace (97 <=? nat_of_ascii c) with false
    by (symmetry; apply Nat.leb_gt; lia).
  reflexivity.
Qed.






Lemma infer_choose_n_choices (q : Question) :
  choices (infer_choose_n q) = choices q.
Proof.
  unfold infer_choose_n. destruct (choose_n q); [reflexivity|].
  now destruct (correct_letters q).
Qed.

Lemma finalize_choices (q : Question) : choices (finalize q) = choices q.
Proof.
  unfold finalize. cbn [set_text choices]. apply infer_choose_n_choices.
Qed.





(** * More of the program *)

(** ** The parser, block by block *)

Lemma parse_line_question (st : parser_state) (line g1 qtext : str) :
  QUESTION_RE line = Some (g1, qtext) ->
  parse_line st line
  = {| questions := match current_q st with
                    | Some c => questions st ++ [finalize c]
                    | None => questions st
                    end;
       current_q := Some (start_question g1 qtext) |}.
Proof.
  intros E. unfold parse_line, start_question. rewrite E.
  now destruct (CHOOSE_RE qtext).
Qed.

Lemma parse_line_other (st : parser_state) (line : str) :
  QUESTION_RE line = None ->
  parse_line st line
  = match current_q st with
    | Some c => {| questions := questions st;
                   current_q := Some (block_step c line) |}
    | None => st
    end.
Proof.
  intros E. unfold parse_line, block_step. rewrite E.
  destruct st as [qs [c|]]; cbn [current_q questions]; [|reflexivity].
  destruct (CHOICE_RE line) as [[letter text_opt]|]; [reflexivity|].
  destruct (CORRECT_RE line); [reflexivity|].
  now destruct (is_wrapped_text line).
Qed.

Lemma is_question_line_false (line : str) :
  is_question_line line = false -> QUESTION_RE line = None.
Proof.
  unfold is_question_line. now destruct (QUESTION_RE line).
Qed.

Lemma is_question_line_true (line : str) :
  is_question_line line = true ->
  exists g1 qtext, QUESTION_RE line = Some (g1, qtext).
Proof.
  unfold is_question_line.
  destruct (QUESTION_RE line) as [[g1 qtext]|]; [eauto | discriminate].
Qed.

Lemma parse_lines_app (st : parser_state) (l1 l2 : list str) :
  parse_lines st (l1 ++ l2) = parse_lines (parse_lines st l1) l2.
Proof. unfold parse_lines. apply fold_left_app. Qed.

Lemma parse_lines_cons (st : parser_state) (l : str) (ls : list str) :
  parse_lines st (l :: ls) = parse_lines (parse_line st l) ls.
Proof. reflexivity. Qed.

(** Inside a block the open question is the only thing that changes. *)
Lemma parse_lines_block (qs : list Question) (c : Question)
  (block : list str) :
  Forall (fun l => is_question_line l = false) block ->
  parse_lines {| questions := qs; current_q := Some c |} block
  = {| questions := qs; current_q := Some (fold_left block_step block c) |}.
Proof.
  revert c. induction block as [|l block IH]; intros c H; [reflexivity|].
  inversion H as [|? ? Hl Hb]; subst.
  unfold parse_lines in *. cbn [fold_left].
  rewrite (parse_line_other _ l (is_question_line_false l Hl)).
  cbn [current_q questions]. now apply IH.
Qed.

Lemma parse_lines_preamble (qs : list Question) (pre : list str) :
  Forall (fun l => is_question_line l = false) pre ->
  parse_lines {| questions := qs; current_q := None |} pre
  = {| questions := qs; current_q := None |}.
Proof.
  induction 1 as [|l pre Hl _ IH]; [reflexivity|].
  unfold parse_lines in *. cbn [fold_left].
  rewrite (parse_line_other _ l (is_question_line_false l Hl)).
  exact IH.
Qed.

(** Questions that are closed already are carried along unchanged. *)
Lemma parse_lines_closed (done qs : list Question) (c : option Question)
  (lines : list str) :
  parse_lines {| questions := done ++ qs; current_q := c |} lines
  = {| questions :=
         done ++ questions (parse_lines {| questions := qs; current_q := c |}
                              lines);
       current_q :=
         current_q (parse_lines {| questions := qs; current_q := c |} lines)
    |}.
Proof.
  revert qs c. induction lines as [|l lines IH]; intros qs c;
    [reflexivity|].
  unfold parse_lines in *. cbn [fold_left].
  destruct (QUESTION_RE l) as [[g1 qtext]|] eqn:E.
  - rewrite !(parse_line_question _ l g1 qtext E). cbn [current_q questions].
    destruct c as [c|].
    + rewrite <- app_assoc. apply IH.
    + apply IH.
  - rewrite !(parse_line_other _ l E). cbn [current_q questions].
    destruct c as [c|]; apply IH.
Qed.

Lemma parse_finish_closed (done qs : list Question) (c : option Question) :
  parse_finish {| questions := done ++ qs; current_q := c |}
  = filter (fun q => negb (is_nil (choices q))) done
    ++ parse_finish {| questions := qs; current_q := c |}.
Proof.
  unfold parse_finish. cbn [current_q questions].
  destruct c as [c|]; [destruct (is_nil (choices c))|];
    rewrite <- ?app_assoc; apply filter_app.
Qed.

Lemma parse_finish_open (qs : list Question) (c : option Question) :
  parse_finish {| questions := qs; current_q := c |}
  = filter (fun q => negb (is_nil (choices q)))
      (match c with
       | Some c => qs ++ [finalize c]
       | None => qs
       end).
Proof.
  unfold parse_finish. cbn [current_q questions].
  destruct c as [c|]; [|reflexivity].
  destruct (is_nil (choices c)) eqn:E; [|reflexivity].
  rewrite filter_app. cbn [filter]. rewrite finalize_choices, E.
  cbn [negb]. now rewrite app_nil_r.
Qed.

Lemma parse_document_cut (l1 : list str) (qline : str) (l2 : list str) :
  is_question_line qline = true ->
  parse_document (l1 ++ qline :: l2)
  = parse_document l1 ++ parse_document (qline :: l2).
Proof.
  intros Hq.
  destruct (is_question_line_true qline Hq) as [g1 [qtext E]].
  unfold parse_document. rewrite parse_lines_app.
  destruct (parse_lines {| questions := []; current_q := None |} l1)
    as [qs c] eqn:E1.
  rewrite !parse_lines_cons.
  rewrite !(parse_line_question _ qline g1 qtext E). cbn [current_q questions].
  rewrite (parse_finish_open qs c).
  set (done := match c with Some c0 => qs ++ [finalize c0] | None => qs end).
  replace done with (done ++ []) at 1 by apply app_nil_r.
  rewrite parse_lines_closed, parse_finish_closed.
  reflexivity.
Qed.

(** X3. Parsing is local to the blocks: where a document is cut in front
    of a question line, the questions of the whole are the questions of
    the first part followed by the questions of the second. *)
Theorem parse_document_app :
  forall (l1 : list str) (qline : str) (l2 : list str),
    is_question_line qline = true ->
    parse_document (l1 ++ qline :: l2)
    = parse_document l1 ++ parse_document (qline :: l2).
Proof.
  exact parse_document_cut.
Qed.

Lemma parse_document_app_witness :
  parse_document
    ([lit "1. One"; lit "- A. x"] ++ lit "2. Two" :: [lit "- B. y"])
  = parse_document [lit "1. One"; lit "- A. x"]
    ++ parse_document (lit "2. Two" :: [lit "- B. y"]).
Proof.
  apply (parse_document_app [lit "1. One"; lit "- A. x"] (lit "2. Two")
           [lit "- B. y"]).
  reflexivity.
Defined.

Lemma parse_document_skip (pre lines : list str) :
  Forall (fun l => is_question_line l = false) pre ->
  parse_document (pre ++ lines) = parse_document lines.
Proof.
  intros H. unfold parse_document.
  now rewrite parse_lines_app, parse_lines_preamble.
Qed.

(** X2. The lines in front of the first question line are ignored,
    whatever they hold. *)
Theorem parse_document_preamble :
  forall (pre lines : list str),
    Forall (fun l => is_question_line l = false) pre ->
    parse_document (pre ++ lines) = parse_document lines.
Proof.
  exact parse_document_skip.
Qed.

Lemma parse_document_preamble_witness :
  parse_document
    ([lit "# Practice exam"; lit "- A. stray choice"; lit "Correct Answer: B"]
     ++ splitlines canonical_document)
  = parse_document (splitlines canonical_document).
Proof.
  apply (parse_document_preamble
           [lit "# Practice exam"; lit "- A. stray choice";
            lit "Correct Answer: B"]
           (splitlines canonical_document)).
  repeat constructor.
Defined.

Lemma parse_document_block (qline : str) (block : list str) :
  is_question_line qline = true ->
  Forall (fun l => is_question_line l = false) block ->
  parse_document (qline :: block) = emit_block (qline, block).
Proof.
  intros Hq Hb. destruct (is_question_line_true qline Hq) as [g1 [qtext E]].
  unfold parse_document, emit_block, parse_block. cbn [fst snd]. rewrite E.
  rewrite parse_lines_cons.
  rewrite (parse_line_question _ qline g1 qtext E). cbn [current_q questions].
  rewrite (parse_lines_block [] _ block Hb), parse_finish_open.
  cbn [app filter]. now destruct (is_nil (choices (finalize _))).
Qed.

Lemma split_blocks_preamble (lines : list str) :
  Forall (fun l => is_question_line l = false) (fst (split_blocks lines)).
Proof.
  induction lines as [|l lines IH]; [constructor|].
  cbn [split_blocks]. destruct (split_blocks lines) as [pre bs].
  destruct (is_question_line l) eqn:E; cbn [fst] in *;
    [constructor | now constructor].
Qed.

Lemma split_blocks_join (lines : list str) :
  lines = fst (split_blocks lines)
          ++ flat_map (fun b => fst b :: snd b) (snd (split_blocks lines)).
Proof.
  induction lines as [|l lines IH]; [reflexivity|].
  cbn [split_blocks]. destruct (split_blocks lines) as [pre bs].
  cbn [fst snd] in IH.
  destruct (is_question_line l); cbn [fst snd flat_map app]; now f_equal.
Qed.

Lemma split_blocks_blocks (lines : list str) :
  Forall (fun b => is_question_line (fst b) = true
                   /\ Forall (fun l => is_question_line l = false) (snd b))
    (snd (split_blocks lines)).
Proof.
  induction lines as [|l lines IH]; [constructor|].
  pose proof (split_blocks_preamble lines) as Hpre.
  cbn [split_blocks]. destruct (split_blocks lines) as [pre bs].
  cbn [fst snd] in *.
  destruct (is_question_line l) eqn:E; cbn [snd]; [|exact IH].
  constructor; [|exact IH]. now split.
Qed.

Lemma parse_document_join (bs : list (str * list str)) :
  Forall (fun b => is_question_line (fst b) = true
                   /\ Forall (fun l => is_question_line l = false) (snd b))
    bs ->
  parse_document (flat_map (fun b => fst b :: snd b) bs)
  = flat_map emit_block bs.
Proof.
  induction 1 as [|[qline block] bs [Hq Hb] Hbs IH]; [reflexivity|].
  cbn [flat_map fst snd] in *.
  destruct bs as [|[qline' block'] bs'].
  - cbn [flat_map]. rewrite !app_nil_r.
    now apply parse_document_block.
  - inversion Hbs as [|? ? [Hq' _] _]; subst. cbn [fst] in Hq'.
    rewrite <- IH. cbn [flat_map fst snd app].
    etransitivity;
      [exact (parse_document_cut (qline :: block) qline' _ Hq')|].
    f_equal. now apply parse_document_block.
Qed.

Lemma parse_document_split (lines : list str) :
  parse_document lines = flat_map emit_block (snd (split_blocks lines)).
Proof.
  rewrite (split_blocks_join lines) at 1.
  rewrite parse_document_skip by apply split_blocks_preamble.
  apply parse_document_join, split_blocks_blocks.
Qed.

(** X1. The parser is a map over the blocks of the document: the
    questions it returns are, in document order, the questions built from
    each question line and the lines that follow it up to the next
    question line, without those that have no choice. *)
Theorem parse_document_blocks :
  forall doc : str,
    parse_markdown_exam_text doc
    = flat_map emit_block (snd (split_blocks (splitlines doc))).
Proof.
  intros doc. apply parse_document_split.
Qed.

(** ** What the sanitizer leaves *)

Lemma ANY_HTML_TAG_RE_eq (s : str) :
  ANY_HTML_TAG_RE s
  = match s with
    | c0 :: c :: s' =>
        if Ascii.eqb c0 "<" && negb (Ascii.eqb c ">")
        then option_map (fun k => 2 + k) (until_gt s')
        else None
    | _ => None
    end.
Proof.
  destruct s as [|c0 [|c s']]; [reflexivity| |];
    destruct c0 as [[] [] [] [] [] [] [] []]; try reflexivity.
  cbn. now destruct (Ascii.eqb c ">").
Qed.

Lemma until_gt_none (s : str) : until_gt s = None <-> ~ In ">"%char s.
Proof.
  induction s as [|c s IH]; cbn [until_gt In]; [tauto|].
  destruct (Ascii.eqb_spec c ">") as [->|Hc].
  - split; [discriminate | tauto].
  - destruct (until_gt s); cbn [option_map].
    + split; [discriminate|]. intros H.
      assert (Hn : ~ In ">"%char s) by tauto.
      apply IH in Hn. discriminate.
    + split; [|reflexivity]. intros _ [E|Hin]; [congruence|].
      now apply (proj1 IH).
Qed.

Lemma tag_without_gt (c : ascii) (t : str) :
  ~ In ">"%char t -> ANY_HTML_TAG_RE (c :: t) = None.
Proof.
  intros H. rewrite ANY_HTML_TAG_RE_eq. destruct t as [|d t]; [reflexivity|].
  destruct (Ascii.eqb c "<" && negb (Ascii.eqb d ">")); [|reflexivity].
  replace (until_gt t) with (@None nat); [reflexivity|].
  symmetry. apply until_gt_none. intros Hin. apply H. now right.
Qed.

(** Where no tag starts at [c :: s], none starts at [c :: t] for a [t]
    that begins like [s] up to its first [>] and has no [>] that [s]
    has not. *)
Lemma tag_none_kept (c : ascii) (s t : str) :
  ANY_HTML_TAG_RE (c :: s) = None ->
  (forall r, s = ">"%char :: r -> exists r', t = ">"%char :: r') ->
  (In ">"%char t -> In ">"%char s) ->
  ANY_HTML_TAG_RE (c :: t) = None.
Proof.
  rewrite (ANY_HTML_TAG_RE_eq (c :: s)). intros Hs Hgt Hin.
  destruct (Ascii.eqb_spec c "<") as [->|Hc].
  - destruct s as [|d s'].
    + apply tag_without_gt. intros H. now apply Hin in H.
    + destruct (Ascii.eqb_spec d ">") as [->|Hd].
      * destruct (Hgt s' eq_refl) as [r' ->]. now rewrite ANY_HTML_TAG_RE_eq.
      * cbn [andb negb] in Hs. apply tag_without_gt. intros H.
        apply Hin in H. destruct H as [E|H]; [congruence|].
        destruct (until_gt s') eqn:Eu; [discriminate|].
        now apply until_gt_none in Eu.
  - rewrite ANY_HTML_TAG_RE_eq. destruct t as [|d t]; [reflexivity|].
    replace (Ascii.eqb c "<") with false; [reflexivity|].
    symmetry. now apply Ascii.eqb_neq.
Qed.

Lemma sub_from_In (m : str -> option nat) (repl : str) (x : ascii)
  (s : str) :
  forall k, In x (sub_from m repl k s) -> In x s \/ In x repl.
Proof.
  induction s as [|c s IH]; intros k; cbn [sub_from]; [tauto|].
  destruct k as [|k].
  - destruct (m (c :: s)) as [[|n]|].
    + intros [->|H]; [left; now left|]. destruct (IH 0 H); [left|right]; auto.
      now right.
    + intros H. apply in_app_or in H. destruct H as [H|H]; [now right|].
      destruct (IH n H); [left; now right | now right].
    + intros [->|H]; [left; now left|]. destruct (IH 0 H); [left|right]; auto.
      now right.
  - intros H. destruct (IH k H); [left; now right | now right].
Qed.

Lemma never_matches_cons (m : str -> option nat) (c : ascii) (s : str) :
  never_matches m (c :: s) = true
  <-> m (c :: s) = None /\ never_matches m s = true.
Proof.
  cbn [never_matches]. destruct (m (c :: s)); [|tauto].
  split; [discriminate | now intros [? _]].
Qed.

Lemma never_matches_suffix (m : str -> option nat) (a b : str) :
  never_matches m (a ++ b) = true -> never_matches m b = true.
Proof.
  induction a as [|c a IH]; [auto|]. cbn [app].
  rewrite never_matches_cons. now intros [_ H]; apply IH.
Qed.

Lemma tag_positive (s : str) (n : nat) :
  ANY_HTML_TAG_RE s = Some n -> 2 <= n.
Proof.
  rewrite ANY_HTML_TAG_RE_eq. destruct s as [|c0 [|c s']]; try discriminate.
  destruct (Ascii.eqb c0 "<" && negb (Ascii.eqb c ">")); [|discriminate].
  destruct (until_gt s'); [|discriminate]. intros [= <-]. lia.
Qed.

Lemma tag_not_at_space (t : str) : ANY_HTML_TAG_RE (" "%char :: t) = None.
Proof. rewrite ANY_HTML_TAG_RE_eq. now destruct t. Qed.

(** The white space step keeps a text free of tags. *)
Lemma collapse_tag_free (s : str) :
  forall k,
    never_matches ANY_HTML_TAG_RE s = true ->
    never_matches ANY_HTML_TAG_RE (sub_from WHITESPACE_RE [" "%char] k s)
    = true.
Proof.
  induction s as [|c s IH]; intros k; [auto|].
  rewrite never_matches_cons. intros [Hc Hs]. cbn [sub_from].
  destruct k as [|k]; [|now apply IH].
  assert (Hkeep : never_matches ANY_HTML_TAG_RE
                    (c :: sub_from WHITESPACE_RE [" "%char] 0 s) = true).
  { apply never_matches_cons. split; [|now apply IH].
    apply (tag_none_kept c s); [assumption| |].
    - intros r ->. cbn [sub_from].
      change (WHITESPACE_RE (">"%char :: r)) with (@None nat). eauto.
    - intros H. apply sub_from_In in H.
      destruct H as [H|[H|[]]]; [assumption | discriminate]. }
  destruct (WHITESPACE_RE (c :: s)) as [[|n]|]; [assumption| |assumption].
  cbn [app]. apply never_matches_cons. split; [apply tag_not_at_space|].
  now apply IH.
Qed.

(** The pass that removes the tags leaves none. *)
Lemma tag_pass_tag_free (s : str) :
  forall k,
    never_matches ANY_HTML_TAG_RE (sub_from ANY_HTML_TAG_RE [] k s) = true.
Proof.
  induction s as [|c s IH]; intros k; [reflexivity|]. cbn [sub_from].
  destruct k as [|k]; [|apply IH].
  destruct (ANY_HTML_TAG_RE (c :: s)) as [[|n]|] eqn:E.
  - apply tag_positive in E. lia.
  - apply IH.
  - apply never_matches_cons. split; [|apply IH].
    apply (tag_none_kept c s); [assumption| |].
    + intros r ->. cbn [sub_from].
      rewrite (ANY_HTML_TAG_RE_eq (">"%char :: r)).
      destruct r; cbn; eauto.
    + intros H. apply sub_from_In in H. destruct H as [H|[]]. assumption.
Qed.

Lemma until_gt_app (a w : str) (k : nat) :
  until_gt a = Some k -> until_gt (a ++ w) = Some k.
Proof.
  revert k. induction a as [|c a IH]; intros k; [discriminate|].
  cbn [until_gt app]. destruct (Ascii.eqb c ">"); [auto|].
  destruct (until_gt a) as [j|]; [|discriminate].
  now rewrite (IH j eq_refl).
Qed.

Lemma tag_free_prefix (a w : str) :
  never_matches ANY_HTML_TAG_RE (a ++ w) = true ->
  never_matches ANY_HTML_TAG_RE a = true.
Proof.
  induction a as [|c a IH]; [reflexivity|]. cbn [app].
  rewrite !never_matches_cons. intros [Hc Hs]. split; [|now apply IH].
  revert Hc. rewrite !ANY_HTML_TAG_RE_eq.
  destruct a as [|d a]; [reflexivity|]. cbn [app].
  destruct (Ascii.eqb c "<" && negb (Ascii.eqb d ">")); [|reflexivity].
  destruct (until_gt a) as [k|] eqn:E; [|reflexivity].
  now rewrite (until_gt_app a w k E).
Qed.

Lemma strip_tag_free (s : str) :
  never_matches ANY_HTML_TAG_RE s = true ->
  never_matches ANY_HTML_TAG_RE (strip s) = true.
Proof.
  intros H. unfold strip.
  destruct (rstrip_prefix (lstrip s)) as [w Hw].
  apply (tag_free_prefix _ w). rewrite <- Hw.
  apply (never_matches_suffix _ (take_while is_space s)).
  unfold lstrip. now rewrite <- take_drop_while.
Qed.

Lemma clean_tag_free (x : str) :
  never_matches ANY_HTML_TAG_RE (clean_question_text x) = true.
Proof.
  destruct x as [|c x]; [reflexivity|]. unfold clean_question_text.
  apply strip_tag_free. unfold re_sub at 1.
  apply collapse_tag_free. apply tag_pass_tag_free.
Qed.

Lemma strip_fixed (s : str) : lstrip (strip s) = strip s /\ rstrip (strip s) = strip s.
Proof.
  unfold strip. split; [apply lstrip_rstrip_lstrip | apply rstrip_idempotent].
Qed.

Lemma clean_normalized (x : str) :
  single_spaced (clean_question_text x) = true
  /\ strip (clean_question_text x) = clean_question_text x.
Proof.
  destruct x as [|c x]; [split; reflexivity|]. unfold clean_question_text.
  split.
  - apply single_spaced_strip, collapse_single_spaced.
  - apply strip_idempotent.
Qed.

Lemma sub_from_length (m : str -> option nat) (repl s : str) :
  length repl <= 1 ->
  forall k, length (sub_from m repl k s) <= length s.
Proof.
  intros Hr. induction s as [|c s IH]; intros k; [reflexivity|].
  cbn [sub_from length]. destruct k as [|k].
  - destruct (m (c :: s)) as [[|n]|]; cbn [length].
    + specialize (IH 0). lia.
    + rewrite length_app. specialize (IH n). lia.
    + specialize (IH 0). lia.
  - specialize (IH k). lia.
Qed.

Lemma strip_length (s : str) : length (strip s) <= length s.
Proof.
  unfold strip, rstrip, lstrip. rewrite length_rev.
  pose proof (drop_while_length is_space
                (rev (drop_while is_space s))) as H1.
  pose proof (drop_while_length is_space s) as H2.
  rewrite length_rev in H1. lia.
Qed.

(** X7. Whatever the input, the sanitized text is trimmed, its white
    space is made of single spaces, it holds no tag of the form that the
    last substitution removes, and it is no longer than the input. *)
Theorem clean_question_text_output :
  forall x : str,
    single_spaced (clean_question_text x) = true
    /\ strip (clean_question_text x) = clean_question_text x
    /\ never_matches ANY_HTML_TAG_RE (clean_question_text x) = true
    /\ length (clean_question_text x) <= length x.
Proof.
  intros x. destruct (clean_normalized x) as [H1 H2].
  split; [assumption|]. split; [assumption|].
  split; [apply clean_tag_free|].
  destruct x as [|c x]; [reflexivity|]. unfold clean_question_text.
  etransitivity; [apply strip_length|]. unfold re_sub.
  repeat (etransitivity; [apply sub_from_length; cbn; lia|]).
  reflexivity.
Qed.

(** X8. A text that is trimmed, single-spaced and free of the four
    patterns is left as it is. *)
Theorem clean_question_text_plain :
  forall x : str,
    no_fragment x = true ->
    single_spaced x = true ->
    strip x = x ->
    clean_question_text x = x.
Proof.
  intros x Hf Hs Ht. destruct x as [|c x]; [reflexivity|].
  revert Hf. unfold no_fragment. rewrite !andb_true_iff.
  intros [[[H1 H2] H3] H4]. unfold clean_question_text.
  rewrite (sub_never_matches _ _ _ H1), (sub_never_matches _ _ _ H2),
    (sub_never_matches _ _ _ H3), (sub_never_matches _ _ _ H4).
  fold (collapse (c :: x)). now rewrite (single_spaced_collapse _ Hs).
Qed.

Lemma clean_question_text_plain_witness :
  clean_question_text (lit "What is S3? (Choose one.)")
  = lit "What is S3? (Choose one.)".
Proof.
  apply (clean_question_text_plain (lit "What is S3? (Choose one.)"));
    reflexivity.
Defined.

(** ** The questions the parser returns *)

Lemma emitted_question (lines : list str) (q : Question) :
  In q (parse_document lines) ->
  exists qline block g1 qtext,
    In qline lines
    /\ QUESTION_RE qline = Some (g1, qtext)
    /\ q = finalize (fold_left block_step block (start_question g1 qtext))
    /\ choices q <> [].
Proof.
  rewrite parse_document_split. intros H. apply in_flat_map in H.
  destruct H as [[qline block] [Hb Hq]].
  unfold emit_block, parse_block in Hq. cbn [fst snd] in Hq.
  destruct (QUESTION_RE qline) as [[g1 qtext]|] eqn:E; [|contradiction].
  destruct (is_nil (choices _)) eqn:En; [contradiction|].
  destruct Hq as [<-|[]].
  exists qline, block, g1, qtext. split; [|split; [assumption|split]].
  - rewrite (split_blocks_join lines). apply in_or_app. right.
    apply in_flat_map. exists (qline, block). split; [assumption | now left].
  - reflexivity.
  - intros Hc. now rewrite Hc in En.
Qed.








Lemma infer_choose_n_correct_letters (c : Question) :
  correct_letters (infer_choose_n c) = correct_letters c.
Proof.
  unfold infer_choose_n. destruct (choose_n c); [reflexivity|].
  destruct (correct_letters c) eqn:E; [now rewrite E | exact E].
Qed.









(** X6. The text of every question the parser returns has gone through
    the sanitizer: it is trimmed, single-spaced and holds no tag. *)
Theorem parsed_question_text_sanitized :
  forall (doc : str) (q : Question),
    In q (parse_markdown_exam_text doc) ->
    single_spaced (text q) = true
    /\ strip (text q) = text q
    /\ never_matches ANY_HTML_TAG_RE (text q) = true.
Proof.
  intros doc q Hin.
  destruct (emitted_question (splitlines doc) q Hin)
    as [qline [block [g1 [qtext [_ [_ [Hq _]]]]]]].
  subst q. unfold finalize. cbn [set_text text].
  destruct (clean_normalized
              (text (infer_choose_n
                       (fold_left block_step block
                          (start_question g1 qtext))))) as [H1 H2].
  split; [assumption|]. split; [assumption|]. apply clean_tag_free.
Qed.

Lemma parsed_question_text_sanitized_witness :
  single_spaced (text canonical_q1) = true
  /\ strip (text canonical_q1) = text canonical_q1
  /\ never_matches ANY_HTML_TAG_RE (text canonical_q1) = true.
Proof.
  apply (parsed_question_text_sanitized canonical_document canonical_q1).
  vm_compute. left. reflexivity.
Defined.










(** ** Sessions without an exception *)

Lemma check_answer_fails_empty (q : Question) (chs : list (ascii * str))
  (multi : bool) (line : str) (e : exn) :
  check_answer q chs multi line = Fails e -> correct_letters q = [].
Proof.
  unfold check_answer.
  destruct (map upper (filter is_alpha (strip line))) as [|c l];
    [discriminate|].
  destruct (negb (issubset (c :: l) (map fst chs))); [discriminate|].
  destruct multi.
  - destruct (negb (length (set_of (c :: l)) =? expected_count q));
      discriminate.
  - destruct (correct_letters q); [reflexivity | discriminate].
Qed.

Lemma ask_error_empty (q : Question) (chs : list (ascii * str))
  (multi : bool) (inputs : list str) (out : list printed) (e : exn) :
  ask q chs multi inputs = (out, Error e) -> correct_letters q = [].
Proof.
  revert out. induction inputs as [|line inputs IH]; intros out; cbn [ask].
  - discriminate.
  - destruct (check_answer q chs multi line) as [msg|b|e'] eqn:Ec.
    + destruct (ask q chs multi inputs) as [o r].
      intros [= <- ->]. now apply (IH o).
    + discriminate.
    + intros _. now apply check_answer_fails_empty in Ec.
Qed.

Lemma quiz_loop_no_exception (rng : Type)
  (random_shuffle : forall A : Type, list A -> rng -> list A * rng)
  (shuffle_choices : bool) (total : nat) (qs : list Question) :
  0 < total ->
  Forall (fun q => correct_letters q <> []) qs ->
  forall (idx : nat) (st : counters) (g : rng) (inputs : list str),
    final (quiz_loop rng random_shuffle shuffle_choices total idx qs st g
             inputs) = Finished
    \/ final (quiz_loop rng random_shuffle shuffle_choices total idx qs st g
                inputs) = InputClosed.
Proof.
  intros Ht. induction 1 as [|q qs Hq _ IH]; intros idx st g inputs;
    cbn [quiz_loop].
  - unfold final_part. destruct total; [lia | now left].
  - destruct (shuffle_if rng random_shuffle shuffle_choices (choices q) g)
      as [chs g'].
    destruct (ask_question q chs inputs) as [out [| b rest | e]] eqn:Ea;
      cbn [final prepend].
    + now right.
    + apply IH.
    + unfold ask_question in Ea. apply ask_error_empty in Ea.
      rewrite infer_choose_n_correct_letters in Ea. contradiction.
Qed.

(** X9. A session on at least one question, all of which have a correct
    letter, raises no exception: it reaches its end or stops at the end
    of the input. *)
Theorem session_without_exception :
  forall (rng : Type) (random_seed : Z -> rng)
         (random_shuffle : forall A : Type, list A -> rng -> list A * rng)
         (qs : list Question) (shuffle_questions shuffle_choices : bool)
         (limit seed : option Z) (g : rng) (inputs : list str),
    let asked := fst (session_questions rng random_seed random_shuffle qs
                        shuffle_questions limit seed g) in
    let r := run_quiz rng random_seed random_shuffle qs shuffle_questions
               shuffle_choices limit seed g inputs in
    asked <> [] ->
    Forall (fun q => correct_letters q <> []) asked ->
    final r = Finished \/ final r = InputClosed.
Proof.
  intros rng random_seed random_shuffle qs sq sc limit seed g inputs.
  cbn zeta. unfold run_quiz.
  destruct (session_questions rng random_seed random_shuffle qs sq limit
              seed g) as [qs' g'].
  cbn [fst]. intros Hne Hall.
  apply quiz_loop_no_exception; [|assumption].
  destruct qs'; [contradiction | cbn; lia].
Qed.

Lemma session_without_exception_witness :
  final (run_plain [canonical_q1; canonical_q2] None [lit "B"; lit "x"])
  = Finished
  \/ final (run_plain [canonical_q1; canonical_q2] None [lit "B"; lit "x"])
     = InputClosed.
Proof.
  apply (session_without_exception unit (fun _ => tt) no_shuffle
           [canonical_q1; canonical_q2] false false None None tt
           [lit "B"; lit "x"]).
  - discriminate.
  - repeat constructor; discriminate.
Defined.

(** ** Lines that are rejected *)

Lemma firstn_skipn_app {A : Type} (a b : list A) :
  firstn (length a) (a ++ b) = a /\ skipn (length a) (a ++ b) = b.
Proof.
  induction a as [|x a [IH1 IH2]]; [split; reflexivity|].
  cbn [length app firstn skipn]. split; [now f_equal | assumption].
Qed.

(** X10. A line that the validation loop rejects costs nothing: the
    session goes on as if the line had not been entered, with the same
    outcome and the same counters, and its output differs only by the
    prompt and the message printed for that line, which come after the
    question and its choices. *)
Theorem rejected_line_only_reprompts :
  forall (rng : Type)
         (random_shuffle : forall A : Type, list A -> rng -> list A * rng)
         (shuffle_choices : bool) (total idx : nat) (q : Question)
         (qs : list Question) (st : counters) (g : rng) (line : str)
         (inputs : list str),
    let chs :=
      fst (shuffle_if rng random_shuffle shuffle_choices (choices q) g) in
    let r := quiz_loop rng random_shuffle shuffle_choices total idx
               (q :: qs) st g inputs in
    let r' := quiz_loop rng random_shuffle shuffle_choices total idx
                (q :: qs) st g (line :: inputs) in
    rejected q chs line = true ->
    final r' = final r
    /\ score r' = score r
    /\ exists msg,
        is_dialogue msg = true
        /\ output r'
           = firstn (2 + length chs) (output r)
             ++ PPrompt :: msg :: skipn (2 + length chs) (output r).
Proof.
  intros rng random_shuffle sc total idx q qs st g line inputs.
  cbn zeta. cbn [quiz_loop].
  destruct (shuffle_if rng random_shuffle sc (choices q) g) as [chs g'].
  cbn [fst]. unfold rejected, ask_question. cbn [ask].
  destruct (check_answer (infer_choose_n q) chs
              (is_multi (infer_choose_n q)) line) as [msg| |] eqn:Ec;
    try discriminate.
  intros _.
  set (shown := PHeader idx total :: PText (text q)
                :: map (fun p => PChoice (fst p) (snd p)) chs).
  assert (Hlen : 2 + length chs = length shown)
    by (unfold shown; cbn [length]; now rewrite length_map).
  rewrite Hlen.
  destruct (ask (infer_choose_n q) chs (is_multi (infer_choose_n q)) inputs)
    as [out [| b rest | e]];
    cbn [final score output prepend];
    (split; [reflexivity|]; split; [reflexivity|]);
    exists msg; (split; [now apply check_answer_retry_dialogue in Ec|]);
    rewrite <- ?app_assoc;
    match goal with
    | |- _ = firstn _ (shown ++ ?t) ++ _ :: _ :: skipn _ (shown ++ ?t) =>
        destruct (firstn_skipn_app shown t) as [-> ->]
    end; reflexivity.
Qed.

Lemma rejected_line_only_reprompts_witness :
  final (run_plain [canonical_q2] None [lit "ABC"; lit "CA"])
  = final (run_plain [canonical_q2] None [lit "CA"])
  /\ score (run_plain [canonical_q2] None [lit "ABC"; lit "CA"])
     = score (run_plain [canonical_q2] None [lit "CA"])
  /\ exists msg,
      is_dialogue msg = true
      /\ output (run_plain [canonical_q2] None [lit "ABC"; lit "CA"])
         = firstn 5 (output (run_plain [canonical_q2] None [lit "CA"]))
           ++ PPrompt :: msg
           :: skipn 5 (output (run_plain [canonical_q2] None [lit "CA"])).
Proof.
  apply (rejected_line_only_reprompts unit no_shuffle false 1 1 canonical_q2
           [] {| correct := 0; running_total := 0 |} tt (lit "ABC")
           [lit "CA"]).
  reflexivity.
Defined.

(** ** Letters that are not offered *)

Lemma insert_sorted_In (c x : ascii) (l : list ascii) :
  In x (insert_sorted c l) <-> x = c \/ In x l.
Proof.
  induction l as [|d l IH]; cbn [insert_sorted In]; [intuition congruence|].
  destruct (nat_of_ascii c <=? nat_of_ascii d); cbn [In];
    [intuition congruence|].
  rewrite IH. intuition congruence.
Qed.

Lemma sorted_In (x : ascii) (l : list ascii) : In x (sorted l) <-> In x l.
Proof.
  induction l as [|c l IH]; [reflexivity|].
  unfold sorted in *. cbn [fold_right In]. rewrite insert_sorted_In, IH.
  intuition congruence.
Qed.

Lemma insert_sorted_NoDup (c : ascii) (l : list ascii) :
  ~ In c l -> NoDup l -> NoDup (insert_sorted c l).
Proof.
  induction l as [|d l IH]; cbn [insert_sorted]; intros Hc Hl.
  - constructor; [exact Hc | constructor].
  - destruct (nat_of_ascii c <=? nat_of_ascii d); [now constructor|].
    inversion Hl as [|? ? Hd Hl']; subst. constructor.
    + rewrite insert_sorted_In. intros [->|H]; [|contradiction].
      apply Hc. now left.
    + apply IH; [|assumption]. intros H. apply Hc. now right.
Qed.

Lemma sorted_NoDup (l : list ascii) : NoDup l -> NoDup (sorted l).
Proof.
  induction 1 as [|c l Hc Hl IH]; [constructor|].
  unfold sorted in *. cbn [fold_right].
  apply insert_sorted_NoDup; [|assumption]. now rewrite sorted_In.
Qed.

Lemma insert_sorted_Sorted (c : ascii) (l : list ascii) :
  Sorted (fun a b => nat_of_ascii a <= nat_of_ascii b) l ->
  Sorted (fun a b => nat_of_ascii a <= nat_of_ascii b) (insert_sorted c l).
Proof.
  induction l as [|d l IH]; cbn [insert_sorted]; intros Hl.
  - repeat constructor.
  - destruct (nat_of_ascii c <=? nat_of_ascii d) eqn:E.
    + apply Nat.leb_le in E. constructor; [assumption | now constructor].
    + apply Nat.leb_gt in E. inversion Hl as [|? ? Hl' Hd]; subst.
      constructor; [now apply IH|].
      destruct l as [|e l]; cbn [insert_sorted].
      * constructor. lia.
      * destruct (nat_of_ascii c <=? nat_of_ascii e); constructor;
          [lia | now inversion Hd].
Qed.

Lemma sorted_Sorted (l : list ascii) :
  Sorted (fun a b => nat_of_ascii a <= nat_of_ascii b) (sorted l).
Proof.
  induction l as [|c l IH]; [constructor|].
  unfold sorted in *. cbn [fold_right]. now apply insert_sorted_Sorted.
Qed.

Lemma issubset_false (a b : list ascii) :
  issubset a b = false -> exists c, In c a /\ ~ In c b.
Proof.
  unfold issubset. induction a as [|x a IH]; cbn [forallb]; [discriminate|].
  destruct (mem x b) eqn:E; cbn [andb].
  - intros H. destruct (IH H) as [c [Hc Hn]]. exists c.
    split; [now right | assumption].
  - intros _. exists x. split; [now left|].
    intros H. apply mem_In in H. congruence.
Qed.

(** X11. A line with a letter that the question does not offer is
    rejected, in single-select and in multi-select mode alike, and the
    question is asked again.  The message names exactly the letters of
    the line that are not offered, each once, in alphabetical order. *)
Theorem invalid_letters_reported :
  forall (q : Question) (chs : list (ascii * str)) (line : str)
         (rest : list str),
    issubset (letters_of line) (map fst chs) = false ->
    exists invalid,
      ask_question q chs (line :: rest)
      = (PPrompt :: PInvalid invalid :: fst (ask_question q chs rest),
         snd (ask_question q chs rest))
      /\ invalid <> []
      /\ NoDup invalid
      /\ Sorted (fun a b => nat_of_ascii a <= nat_of_ascii b) invalid
      /\ forall c,
          In c invalid
          <-> In c (letters_of line) /\ ~ In c (map fst chs).
Proof.
  intros q chs line rest Hsub.
  set (invalid :=
         sorted (filter (fun c => negb (mem c (map fst chs)))
                   (set_of (letters_of line)))).
  assert (Hin : forall c, In c invalid
                          <-> In c (letters_of line)
                              /\ ~ In c (map fst chs)).
  { intros c. unfold invalid, set_of.
    rewrite sorted_In, filter_In, nodup_In, negb_true_iff.
    split; intros [H1 H2]; (split; [assumption|]).
    - intros H. apply mem_In in H. congruence.
    - destruct (mem c (map fst chs)) eqn:E; [|reflexivity].
      apply mem_In in E. contradiction. }
  exists invalid. split; [|split; [|split; [|split]]].
  - unfold ask_question. cbn [ask]. unfold check_answer.
    fold (letters_of line). rewrite Hsub. cbn [negb].
    destruct (letters_of line) as [|c l] eqn:El; [discriminate|].
    fold invalid.
    now destruct (ask (infer_choose_n q) chs (is_multi (infer_choose_n q))
                    rest).
  - destruct (issubset_false _ _ Hsub) as [c Hc].
    apply Hin in Hc. intros E. now rewrite E in Hc.
  - apply sorted_NoDup, NoDup_filter, NoDup_nodup.
  - apply sorted_Sorted.
  - exact Hin.
Qed.

Lemma invalid_letters_reported_witness :
  exists invalid,
    ask_question canonical_q2 (choices canonical_q2) [lit "z, a, d, Z"]
    = (PPrompt :: PInvalid invalid
       :: fst (ask_question canonical_q2 (choices canonical_q2) []),
       snd (ask_question canonical_q2 (choices canonical_q2) []))
    /\ invalid <> []
    /\ NoDup invalid
    /\ Sorted (fun a b => nat_of_ascii a <= nat_of_ascii b) invalid
    /\ forall c,
        In c invalid
        <-> In c (letters_of (lit "z, a, d, Z"))
            /\ ~ In c (map fst (choices canonical_q2)).
Proof.
  apply (invalid_letters_reported canonical_q2 (choices canonical_q2)
           (lit "z, a, d, Z") []).
  reflexivity.
Defined.

(** ** Single-select mode *)

(** X12. In single-select mode the first letter of the line decides: a
    line whose letters are all offered is accepted whatever their number,
    and it is scored correct exactly when its first letter is the first
    correct letter. *)
Theorem single_select_first_letter :
  forall (q : Question) (chs : list (ascii * str)) (line : str)
         (rest : list str) (first c0 : ascii) (others cs : list ascii),
    is_multi (infer_choose_n q) = false ->
    correct_letters q = c0 :: cs ->
    letters_of line = first :: others ->
    issubset (letters_of line) (map fst chs) = true ->
    ask_question q chs (line :: rest)
    = ([PPrompt], Answer (Ascii.eqb first c0) rest).
Proof.
  intros q chs line rest first c0 others cs Hm Hc Hl Hs.
  unfold ask_question. rewrite Hm. cbn [ask]. unfold check_answer.
  fold (letters_of line). rewrite Hs, Hl, infer_choose_n_correct_letters, Hc.
  reflexivity.
Qed.

Lemma single_select_first_letter_witness :
  ask_question canonical_q1 (choices canonical_q1) [lit "ab"]
  = ([PPrompt], Answer true [])
  /\ ask_question canonical_q1 (choices canonical_q1) [lit "ba"]
     = ([PPrompt], Answer false []).
Proof.
  split.
  - apply (single_select_first_letter canonical_q1 (choices canonical_q1)
             (lit "ab") [] "A"%char "A"%char ["B"%char] []); reflexivity.
  - apply (single_select_first_letter canonical_q1 (choices canonical_q1)
             (lit "ba") [] "B"%char "A"%char ["A"%char] []); reflexivity.
Defined.

(** ** The running score *)

Lemma score_lines_app (a b : list printed) :
  score_lines (a ++ b) = score_lines a ++ score_lines b.
Proof. apply flat_map_app. Qed.

Lemma count_lines_app (f : printed -> bool) (a b : list printed) :
  count_lines f (a ++ b) = count_lines f a + count_lines f b.
Proof. unfold count_lines. now rewrite filter_app, length_app. Qed.

(** The lines printed for a question before its verdict hold no score
    line and no verdict. *)
Lemma question_lines_plain (idx total : nat) (t : str)
  (chs : list (ascii * str)) (out : list printed) :
  Forall (fun p => is_dialogue p = true) out ->
  let shown := PHeader idx total :: PText t
               :: map (fun p => PChoice (fst p) (snd p)) chs ++ out in
  score_lines shown = []
  /\ count_lines is_PCorrect shown = 0
  /\ count_lines is_PIncorrect shown = 0.
Proof.
  intros Hd. cbn zeta.
  assert (H : Forall (fun p => is_scoring p = false)
                (PHeader idx total :: PText t
                 :: map (fun p => PChoice (fst p) (snd p)) chs ++ out)).
  { constructor; [reflexivity|]. constructor; [reflexivity|].
    apply Forall_app. split.
    - apply Forall_map, Forall_forall. reflexivity.
    - revert Hd. apply Forall_impl. now intros []. }
  set (l := PHeader idx total :: _) in *. clearbody l.
  unfold score_lines, count_lines.
  induction H as [|p l Hp _ [IH1 [IH2 IH3]]]; [now repeat split|].
  cbn [flat_map filter]. rewrite IH1.
  destruct p; try discriminate; cbn [is_PCorrect is_PIncorrect app];
    now repeat split.
Qed.

Section Accounting.

Variable rng : Type.
Variable random_shuffle : forall A : Type, list A -> rng -> list A * rng.

Lemma quiz_loop_scores (shuffle_choices : bool) (total : nat)
  (qs : list Question) :
  forall (idx : nat) (st : counters) (g : rng) (inputs : list str),
    let r := quiz_loop rng random_shuffle shuffle_choices total idx qs st g
               inputs in
    exists k,
      k <= length qs
      /\ map snd (score_lines (output r)) = seq (running_total st + 1) k
      /\ count_lines is_PCorrect (output r)
         + count_lines is_PIncorrect (output r) = k
      /\ correct (score r)
         = correct st + count_lines is_PCorrect (output r)
      /\ (0 < k ->
          last (score_lines (output r)) (0, 0)
          = (correct (score r), running_total st + k))
      /\ (final r = Finished -> k = length qs).
Proof.
  induction qs as [|q qs IH]; intros idx st g inputs; cbn [quiz_loop].
  - cbn zeta. exists 0. unfold final_part.
    destruct total; [|destruct (float_ge _ _)];
      cbn [output score final length seq]; unfold score_lines, count_lines;
      cbn; (repeat split; try lia; try reflexivity).
  - destruct (shuffle_if rng random_shuffle shuffle_choices (choices q) g)
      as [chs g'].
    pose proof (ask_dialogue (infer_choose_n q) chs
                  (is_multi (infer_choose_n q)) inputs) as Hd.
    destruct (ask_question q chs inputs) as [out [| b rest | e]] eqn:Ea;
      unfold ask_question in Ea; rewrite Ea in Hd; cbn [fst] in Hd;
      destruct (question_lines_plain idx total (text q) chs out Hd)
        as [H1 [H2 H3]];
      cbn zeta; cbn [final output score prepend correct].
    + exists 0. cbn [app] in *. rewrite H1, H2, H3. cbn [map seq].
      repeat split; try lia. discriminate.
    + set (st' := {| correct := if b then correct st + 1 else correct st;
                     running_total := running_total st + 1 |}).
      destruct (IH (idx + 1) st' g' rest)
        as [k [Hk [Hs [Hc [Hcor [Hlast Hfin]]]]]].
      set (rec := quiz_loop rng random_shuffle shuffle_choices total
                    (idx + 1) qs st' g' rest) in *.
      exists (S k).
      replace ((PHeader idx total :: PText (text q)
                :: map (fun p => PChoice (fst p) (snd p)) chs)
               ++ out ++ (if b then [PCorrect]
                          else [PIncorrect;
                                PCorrectAnswer
                                  (map (fun l => (l, corr_text chs l))
                                     (correct_letters q))])
               ++ [PScore (if b then correct st + 1 else correct st)
                     (running_total st + 1)])
        with ((PHeader idx total :: PText (text q)
               :: map (fun p => PChoice (fst p) (snd p)) chs ++ out)
              ++ (if b then [PCorrect]
                  else [PIncorrect;
                        PCorrectAnswer
                          (map (fun l => (l, corr_text chs l))
                             (correct_letters q))])
              ++ [PScore (correct st') (running_total st')])
        by (cbn [app]; now rewrite <- app_assoc).
      rewrite <- !app_assoc, !score_lines_app, !count_lines_app.
      rewrite H1, H2, H3. cbn [running_total correct] in *.
      assert (Hv : score_lines (if b then [PCorrect]
                                else [PIncorrect;
                                      PCorrectAnswer
                                        (map (fun l => (l, corr_text chs l))
                                           (correct_letters q))]) = []
                   /\ count_lines is_PCorrect
                        (if b then [PCorrect]
                         else [PIncorrect;
                               PCorrectAnswer
                                 (map (fun l => (l, corr_text chs l))
                                    (correct_letters q))])
                      = (if b then 1 else 0)
                   /\ count_lines is_PIncorrect
                        (if b then [PCorrect]
                         else [PIncorrect;
                               PCorrectAnswer
                                 (map (fun l => (l, corr_text chs l))
                                    (correct_letters q))])
                      = (if b then 0 else 1))
        by (destruct b; repeat split).
      destruct Hv as [Hv1 [Hv2 Hv3]]. rewrite Hv1, Hv2, Hv3.
      cbn [app score_lines flat_map map snd count_lines filter is_PCorrect
             is_PIncorrect length Nat.add seq].
      fold (score_lines (output rec)).
      fold (count_lines is_PCorrect (output rec)).
      fold (count_lines is_PIncorrect (output rec)).
      replace (S (running_total st + 1)) with (running_total st + 1 + 1)
        by lia.
      rewrite Hs. unfold st' in Hcor, Hlast |- *.
      cbn [running_total correct] in Hcor, Hlast |- *.
      split; [cbn [length]; lia|]. split; [reflexivity|].
      split; [destruct b; lia|]. split; [destruct b; lia|].
      split; [|intros H; cbn [length]; f_equal; now apply Hfin].
      intros _. destruct k as [|k].
      * cbn [seq] in Hs. apply map_eq_nil in Hs. rewrite Hs. cbn [last].
        f_equal; try lia; rewrite Hcor; destruct b; lia.
      * destruct (score_lines (output rec)) as [|p l] eqn:El;
          [discriminate|].
        change (last ((if b then correct st + 1 else correct st,
                       running_total st + 1) :: p :: l) (0, 0))
          with (last (p :: l) (0, 0)).
        rewrite Hlast by lia. f_equal. lia.
    + exists 0. cbn [app] in *. rewrite H1, H2, H3. cbn [map seq].
      repeat split; try lia. discriminate.
Qed.

End Accounting.

(** X13. The running score adds up.  In every session the score lines
    count the answered questions 1, 2, ..., [k]; each answered question
    has printed one verdict, correct or incorrect; the counter of correct
    answers is the number of "correct" verdicts, and it is what the last
    score line shows.  A session that reaches its end has answered every
    question and prints that counter over the number of questions as its
    final score. *)
Theorem score_accounting :
  forall (rng : Type) (random_seed : Z -> rng)
         (random_shuffle : forall A : Type, list A -> rng -> list A * rng)
         (qs : list Question) (shuffle_questions shuffle_choices : bool)
         (limit seed : option Z) (g : rng) (inputs : list str),
    let r := run_quiz rng random_seed random_shuffle qs shuffle_questions
               shuffle_choices limit seed g inputs in
    let N := length (fst (session_questions rng random_seed random_shuffle
                            qs shuffle_questions limit seed g)) in
    exists k,
      k <= N
      /\ map snd (score_lines (output r)) = seq 1 k
      /\ count_lines is_PCorrect (output r)
         + count_lines is_PIncorrect (output r) = k
      /\ correct (score r) = count_lines is_PCorrect (output r)
      /\ (0 < k ->
          last (score_lines (output r)) (0, 0) = (correct (score r), k))
      /\ (final r = Finished ->
          k = N /\ In (PFinalScore (correct (score r)) N) (output r)).
Proof.
  intros rng random_seed random_shuffle qs sq sc limit seed g inputs.
  cbn zeta. unfold run_quiz.
  destruct (session_questions rng random_seed random_shuffle qs sq limit
              seed g) as [qs' g'].
  cbn [fst].
  destruct (quiz_loop_scores rng random_shuffle sc (length qs') qs' 1
              {| correct := 0; running_total := 0 |} g' inputs)
    as [k [Hk [Hs [Hc [Hcor [Hlast Hfin]]]]]].
  cbn [correct running_total Nat.add] in *.
  exists k. repeat (split; [assumption|]).
  intros Hf. split; [now apply Hfin|].
  destruct (quiz_loop_finished rng random_shuffle sc (length qs') qs' 1
              {| correct := 0; running_total := 0 |} g' inputs Hf)
    as [Hn [_ [o [Ho _]]]].
  rewrite Ho. apply in_or_app. right. unfold final_part.
  destruct (length qs'); [lia | now left].
Qed.

Lemma score_accounting_witness :
  exists k,
    k <= 2
    /\ map snd (score_lines
                  (output (run_plain [canonical_q1; canonical_q2] None
                             [lit "B"; lit "x"; lit "CA"])))
       = seq 1 k
    /\ count_lines is_PCorrect
         (output (run_plain [canonical_q1; canonical_q2] None
                    [lit "B"; lit "x"; lit "CA"]))
       + count_lines is_PIncorrect
           (output (run_plain [canonical_q1; canonical_q2] None
                      [lit "B"; lit "x"; lit "CA"])) = k
    /\ correct (score (run_plain [canonical_q1; canonical_q2] None
                         [lit "B"; lit "x"; lit "CA"]))
       = count_lines is_PCorrect
           (output (run_plain [canonical_q1; canonical_q2] None
                      [lit "B"; lit "x"; lit "CA"]))
    /\ (0 < k ->
        last (score_lines
                (output (run_plain [canonical_q1; canonical_q2] None
                           [lit "B"; lit "x"; lit "CA"]))) (0, 0)
        = (correct (score (run_plain [canonical_q1; canonical_q2] None
                             [lit "B"; lit "x"; lit "CA"])), k))
    /\ (final (run_plain [canonical_q1; canonical_q2] None
                 [lit "B"; lit "x"; lit "CA"]) = Finished ->
        k = 2
        /\ In (PFinalScore
                 (correct (score (run_plain [canonical_q1; canonical_q2]
                                    None [lit "B"; lit "x"; lit "CA"]))) 2)
             (output (run_plain [canonical_q1; canonical_q2] None
                        [lit "B"; lit "x"; lit "CA"]))).
Proof.
  exact (score_accounting unit (fun _ => tt) no_shuffle
           [canonical_q1; canonical_q2] false false None None tt
           [lit "B"; lit "x"; lit "CA"]).
Defined.

(** ** A session of right answers *)

Lemma upper_not_space (c : ascii) : is_upper c = true -> is_space c = false.
Proof.
  unfold is_upper, is_space. intros H.
  apply andb_true_iff in H. destruct H as [H1 H2].
  apply Nat.leb_le in H1, H2.
  destruct (Nat.leb_spec 9 (nat_of_ascii c)),
    (Nat.leb_spec (nat_of_ascii c) 13),
    (Nat.leb_spec 28 (nat_of_ascii c)),
    (Nat.leb_spec (nat_of_ascii c) 32),
    (Nat.eqb_spec (nat_of_ascii c) 133),
    (Nat.eqb_spec (nat_of_ascii c) 160); cbn; try reflexivity; lia.
Qed.

Lemma strip_letters (s : str) :
  forallb is_upper s = true -> strip s = s.
Proof.
  intros H. rewrite forallb_forall in H.
  assert (Hhead : forall t : str,
             (forall c, In c t -> In c s) ->
             drop_while is_space t = t).
  { intros t Ht. apply drop_while_id. destruct t as [|d t]; [exact I|].
    apply upper_not_space, H, Ht. now left. }
  unfold strip, rstrip, lstrip.
  rewrite (Hhead s) by auto.
  rewrite (Hhead (rev s)) by (intros c Hc; now apply in_rev).
  apply rev_involutive.
Qed.

Lemma letters_of_letters (s : str) :
  forallb is_upper s = true -> letters_of s = s.
Proof.
  intros H. unfold letters_of. rewrite (strip_letters s H).
  rewrite forallb_forall in H.
  induction s as [|c s IH]; [reflexivity|].
  assert (Hc : is_upper c = true) by (apply H; now left).
  cbn [filter]. unfold is_alpha at 1. rewrite Hc. cbn [orb map].
  rewrite (upper_of_upper c Hc). f_equal. apply IH.
  intros x Hx. apply H. now right.
Qed.

Lemma issubset_refl (l : list ascii) : issubset l l = true.
Proof. apply issubset_incl. apply incl_refl. Qed.

Lemma ask_right_answer (q : Question) (chs : list (ascii * str))
  (rest : list str) :
  answerable q = true ->
  incl (map fst (choices q)) (map fst chs) ->
  ask_question q chs (correct_letters q :: rest)
  = ([PPrompt], Answer true rest).
Proof.
  unfold answerable. rewrite !andb_true_iff.
  intros [[[Hne Hup] Hsub] Hn] Hincl.
  unfold ask_question. cbn [ask]. unfold check_answer.
  fold (letters_of (correct_letters q)).
  rewrite (letters_of_letters _ Hup), infer_choose_n_correct_letters.
  assert (Hs : issubset (correct_letters q) (map fst chs) = true).
  { apply issubset_incl. apply issubset_incl in Hsub.
    intros x Hx. apply Hincl, Hsub, Hx. }
  rewrite Hs. cbn [negb].
  destruct (correct_letters q) as [|c l] eqn:Ec; [discriminate|].
  destruct (is_multi (infer_choose_n q)).
  - cbn [negb orb] in Hn. rewrite Nat.eqb_sym, Hn. cbn [negb].
    unfold set_eqb. now rewrite issubset_refl.
  - now rewrite Ascii.eqb_refl.
Qed.

Section PerfectSession.

Variable rng : Type.
Variable random_shuffle : forall A : Type, list A -> rng -> list A * rng.

(** [random.shuffle] reorders its list. *)
Hypothesis random_shuffle_perm :
  forall (A : Type) (l : list A) (g : rng),
    Permutation (fst (random_shuffle A l g)) l.

Lemma quiz_loop_right_answers (shuffle_choices : bool) (total : nat)
  (qs : list Question) :
  forallb answerable qs = true ->
  forall (idx : nat) (st : counters) (g : rng) (extra : list str),
    let r := quiz_loop rng random_shuffle shuffle_choices total idx qs st g
               (map correct_letters qs ++ extra) in
    final r = final (final_part (correct st + length qs) total st)
    /\ correct (score r) = correct st + length qs
    /\ exists o,
        output r
        = o ++ output (final_part (correct st + length qs) total st).
Proof.
  induction qs as [|q qs IH]; intros Hall idx st g extra; cbn zeta;
    cbn [quiz_loop map app length].
  - rewrite Nat.add_0_r. unfold final_part.
    destruct total; cbn [final score output]; (repeat split; try lia);
      now exists [].
  - cbn [forallb] in Hall. apply andb_true_iff in Hall.
    destruct Hall as [Hq Hqs].
    destruct (shuffle_if rng random_shuffle shuffle_choices (choices q) g)
      as [chs g'] eqn:Es.
    assert (Hincl : incl (map fst (choices q)) (map fst chs)).
    { unfold shuffle_if in Es. destruct shuffle_choices.
      - pose proof (random_shuffle_perm _ (choices q) g) as Hp.
        rewrite Es in Hp. cbn [fst] in Hp.
        intros x Hx. apply (Permutation_in x (Permutation_map fst
                                               (Permutation_sym Hp))).
        exact Hx.
      - injection Es as <- _. apply incl_refl. }
    rewrite (ask_right_answer q chs (map correct_letters qs ++ extra) Hq
               Hincl).
    cbn [final score output prepend].
    destruct (IH Hqs (idx + 1)
                {| correct := correct st + 1;
                   running_total := running_total st + 1 |} g' extra)
      as [Hf [Hc [o Ho]]].
    cbn [correct] in Hf, Hc, Ho.
    replace (correct st + S (length qs)) with (correct st + 1 + length qs)
      by lia.
    split.
    + rewrite Hf. unfold final_part. now destruct total.
    + split; [assumption|]. eexists. rewrite Ho, app_assoc.
      f_equal. unfold final_part. now destruct total.
Qed.

End PerfectSession.

Lemma full_marks_pass (n : Z) :
  (0 < n)%Z -> float_ge (true_divide n n) float_0_7 = true.
Proof.
  intros Hn. rewrite float_0_7_value.
  destruct (true_divide_le n n) as [j [q [r [Hj [Hb [Hd [Hr [Hq0 ->]]]]]]]];
    [lia|].
  assert (j = 0)%Z.
  { destruct (Z.eq_dec j 0) as [|Hne]; [assumption|].
    assert (H2 : (2 ^ 1 <= 2 ^ j)%Z) by (apply Z.pow_le_mono_r; lia).
    change (2 ^ 1)%Z with 2%Z in H2. nia. }
  subst j. change (2 ^ 0)%Z with 1%Z in *.
  change (2 ^ 52)%Z with 4503599627370496%Z in Hd.
  assert (q = 4503599627370496)%Z by nia. subst q.
  assert (r = 0)%Z by lia. subst r.
  replace (n <? 2 * 0)%Z with false by (symmetry; apply Z.ltb_ge; lia).
  replace (n =? 2 * 0)%Z with false by (symmetry; apply Z.eqb_neq; lia).
  reflexivity.
Qed.

(** X14. When every question of the session can be answered right and
    the user enters, for each question in the order asked, its correct
    letters, the session reaches its end with every answer scored
    correct: the final score is [N/N] and the pass message is printed,
    whatever the number of questions. *)
Theorem right_answers_pass :
  forall (rng : Type) (random_seed : Z -> rng)
         (random_shuffle : forall A : Type, list A -> rng -> list A * rng)
         (qs : list Question) (shuffle_questions shuffle_choices : bool)
         (limit seed : option Z) (g : rng) (extra : list str),
    (forall (A : Type) (l : list A) (g : rng),
        Permutation (fst (random_shuffle A l g)) l) ->
    let asked := fst (session_questions rng random_seed random_shuffle qs
                        shuffle_questions limit seed g) in
    let r := run_quiz rng random_seed random_shuffle qs shuffle_questions
               shuffle_choices limit seed g
               (map correct_letters asked ++ extra) in
    asked <> [] ->
    forallb answerable asked = true ->
    final r = Finished
    /\ correct (score r) = length asked
    /\ In (PFinalScore (length asked) (length asked)) (output r)
    /\ exists f, In (PPassed f) (output r).
Proof.
  intros rng random_seed random_shuffle qs sq sc limit seed g extra Hperm.
  cbn zeta. unfold run_quiz.
  destruct (session_questions rng random_seed random_shuffle qs sq limit
              seed g) as [qs' g'].
  cbn [fst]. intros Hne Hall.
  destruct (quiz_loop_right_answers rng random_shuffle Hperm sc (length qs')
              qs' Hall 1 {| correct := 0; running_total := 0 |} g' extra)
    as [Hf [Hc [o Ho]]].
  cbn [correct Nat.add] in Hf, Hc, Ho.
  rewrite Hf, Hc, Ho. unfold final_part.
  destruct (length qs') as [|n] eqn:En.
  { destruct qs'; [contradiction | discriminate]. }
  rewrite full_marks_pass by lia. cbn [final output].
  split; [reflexivity|]. split; [reflexivity|].
  split; [apply in_or_app; right; now left|].
  eexists. apply in_or_app. right. right. now left.
Qed.

Lemma right_answers_pass_witness :
  final (run_plain [canonical_q1; canonical_q2] None [lit "A"; lit "AC"])
  = Finished
  /\ correct (score (run_plain [canonical_q1; canonical_q2] None
                       [lit "A"; lit "AC"])) = 2
  /\ In (PFinalScore 2 2)
       (output (run_plain [canonical_q1; canonical_q2] None
                  [lit "A"; lit "AC"]))
  /\ exists f,
      In (PPassed f)
        (output (run_plain [canonical_q1; canonical_q2] None
                   [lit "A"; lit "AC"])).
Proof.
  apply (right_answers_pass unit (fun _ => tt) no_shuffle
           [canonical_q1; canonical_q2] false false None None tt []).
  - intros A l g. apply Permutation_refl.
  - discriminate.
  - reflexivity.
Defined.

(** ** A negative limit *)

(** X15. A negative limit [-k] is a slice bound counted from the end: the
    session runs on all but the last [k] questions of the sequence that
    the optional shuffle has left, and when no question is left that way
    it prints the final score 0/0 and raises [ZeroDivisionError]. *)
Theorem negative_limit_drops_tail :
  forall (rng : Type) (random_seed : Z -> rng)
         (random_shuffle : forall A : Type, list A -> rng -> list A * rng)
         (qs : list Question) (shuffle_questions shuffle_choices : bool)
         (limit : Z) (seed : option Z) (g : rng) (inputs : list str),
    (limit < 0)%Z ->
    let shuffled :=
      fst (session_questions rng random_seed random_shuffle qs
             shuffle_questions None seed g) in
    let asked :=
      fst (session_questions rng random_seed random_shuffle qs
             shuffle_questions (Some limit) seed g) in
    let r := run_quiz rng random_seed random_shuffle qs shuffle_questions
               shuffle_choices (Some limit) seed g inputs in
    asked = firstn (length shuffled - Z.to_nat (- limit)) shuffled
    /\ length asked = length shuffled - Z.to_nat (- limit)
    /\ (length shuffled <= Z.to_nat (- limit) ->
        output r = [PFinalScore 0 0] /\ final r = Raised ZeroDivisionError).
Proof.
  intros rng random_seed random_shuffle qs sq sc limit seed g inputs Hl.
  cbn zeta. unfold run_quiz, session_questions.
  destruct (shuffle_if rng random_shuffle sq qs
              match seed with Some s => random_seed s | None => g end)
    as [shuffled g'].
  cbn [fst]. rewrite (slice_to_negative limit shuffled Hl).
  split; [reflexivity|]. split; [rewrite length_firstn; lia|].
  intros Hle.
  replace (length shuffled - Z.to_nat (- limit)) with 0 by lia.
  cbn. auto.
Qed.

Lemma negative_limit_drops_tail_witness :
  fst (session_questions unit (fun _ => tt) no_shuffle
         [canonical_q1; canonical_q2] false (Some (-2)%Z) None tt)
  = firstn (2 - Z.to_nat (- (-2))) [canonical_q1; canonical_q2]
  /\ length (fst (session_questions unit (fun _ => tt) no_shuffle
                    [canonical_q1; canonical_q2] false (Some (-2)%Z) None
                    tt))
     = 2 - Z.to_nat (- (-2))
  /\ (2 <= Z.to_nat (- (-2)) ->
      output (run_plain [canonical_q1; canonical_q2] (Some (-2)%Z)
                [lit "A"])
      = [PFinalScore 0 0]
      /\ final (run_plain [canonical_q1; canonical_q2] (Some (-2)%Z)
                  [lit "A"])
         = Raised ZeroDivisionError).
Proof.
  apply (negative_limit_drops_tail unit (fun _ => tt) no_shuffle
           [canonical_q1; canonical_q2] false false (-2)%Z None tt
           [lit "A"]).
  lia.
Defined.

(** ** The address of an exam *)

Lemma build_github_raw_url_eq (n : Z) :
  build_github_raw_url n
  = lit ("https://raw.githubusercontent.com/kananinirav/"
         ++ "AWS-Certified-Cloud-Practitioner-Notes/master/"
         ++ "practice-exam/practice-exam-")
    ++ str_of_int n ++ lit ".md".
Proof. reflexivity. Qed.

Lemma lit_injective (a b : string) : lit a = lit b -> a = b.
Proof.
  unfold lit. intros H.
  rewrite <- (string_of_list_ascii_of_string a),
    <- (string_of_list_ascii_of_string b). now rewrite H.
Qed.

Lemma str_of_int_injective (n m : Z) : str_of_int n = str_of_int m -> n = m.
Proof.
  unfold str_of_int. intros H. apply lit_injective in H.
  assert (E : Some (Z.to_int n) = Some (Z.to_int m))
    by (rewrite <- !NilEmpty.isi; now rewrite H).
  injection E as E.
  rewrite <- (DecimalZ.of_to n), <- (DecimalZ.of_to m). now rewrite E.
Qed.

(** X16. The address built for an exam number is the raw-file address of
    practice-exam-N.md in the practice-exam directory of the repository,
    with N in decimal, and two exam numbers never share an address. *)
Theorem build_github_raw_url_injective :
  forall n m : Z,
    build_github_raw_url n
    = lit ("https://raw.githubusercontent.com/kananinirav/"
           ++ "AWS-Certified-Cloud-Practitioner-Notes/master/"
           ++ "practice-exam/practice-exam-")
      ++ str_of_int n ++ lit ".md"
    /\ (build_github_raw_url n = build_github_raw_url m -> n = m).
Proof.
  intros n m. split; [reflexivity|].
  rewrite !build_github_raw_url_eq. intros H.
  apply app_inv_head, app_inv_tail in H. now apply str_of_int_injective.
Qed.

Lemma build_github_raw_url_injective_witness :
  build_github_raw_url 16
  = lit ("https://raw.githubusercontent.com/kananinirav/"
         ++ "AWS-Certified-Cloud-Practitioner-Notes/master/"
         ++ "practice-exam/practice-exam-")
    ++ str_of_int 16 ++ lit ".md"
  /\ (build_github_raw_url 16 = build_github_raw_url 16 -> 16%Z = 16%Z).
Proof.
  exact (build_github_raw_url_injective 16 16).
Defined.

(** ** The program *)

Lemma quiz_loop_raised (rng : Type)
  (random_shuffle : forall A : Type, list A -> rng -> list A * rng)
  (shuffle_choices : bool) (total : nat) (qs : list Question) :
  forall (idx : nat) (st : counters) (g : rng) (inputs : list str)
         (e : exn),
    final (quiz_loop rng random_shuffle shuffle_choices total idx qs st g
             inputs) = Raised e ->
    (e = ZeroDivisionError /\ total = 0)
    \/ (e = IndexError /\ exists q, In q qs /\ correct_letters q = []).
Proof.
  induction qs as [|q qs IH]; intros idx st g inputs e; cbn [quiz_loop].
  - unfold final_part. destruct total; [|discriminate].
    intros [= <-]. now left.
  - destruct (shuffle_if rng random_shuffle shuffle_choices (choices q) g)
      as [chs g'].
    destruct (ask_question q chs inputs) as [out [| b rest | e']] eqn:Ea;
      cbn [final prepend]; intros H; try discriminate.
    + destruct (IH _ _ _ _ _ H) as [Hz|[Hi [q' [Hq' Hc]]]]; [now left|].
      right. split; [assumption|]. exists q'. split; [now right|assumption].
    + injection H as <-. unfold ask_question in Ea. right.
      split; [now apply ask_error in Ea|].
      apply ask_error_empty in Ea.
      rewrite infer_choose_n_correct_letters in Ea.
      exists q. split; [now left | assumption].
Qed.

Lemma slice_to_incl {A : Type} (limit : Z) (l : list A) :
  incl (slice_to limit l) l.
Proof.
  unfold slice_to. intros x Hx.
  match type of Hx with
  | In _ (firstn ?k _) =>
      rewrite <- (firstn_skipn k l); apply in_or_app; now left
  end.
Qed.

Section ProgramFacts.

Variable rng : Type.
Variable random_seed : Z -> rng.
Variable random_shuffle : forall A : Type, list A -> rng -> list A * rng.

Hypothesis random_shuffle_perm :
  forall (A : Type) (l : list A) (g : rng),
    Permutation (fst (random_shuffle A l g)) l.

Lemma session_questions_asked (qs : list Question)
  (shuffle_questions : bool) (limit seed : option Z) (g : rng) :
  incl (fst (session_questions rng random_seed random_shuffle qs
               shuffle_questions limit seed g)) qs
  /\ (match limit with
      | Some n => (1 <= n)%Z
      | None => True
      end ->
      qs <> [] ->
      fst (session_questions rng random_seed random_shuffle qs
             shuffle_questions limit seed g) <> []).
Proof.
  unfold session_questions.
  set (g0 := match seed with Some s => random_seed s | None => g end).
  assert (Hp : Permutation
                 (fst (shuffle_if rng random_shuffle shuffle_questions qs g0))
                 qs).
  { unfold shuffle_if. destruct shuffle_questions;
      [apply random_shuffle_perm | apply Permutation_refl]. }
  destruct (shuffle_if rng random_shuffle shuffle_questions qs g0)
    as [shuffled g'].
  cbn [fst] in *. split.
  - intros x Hx. apply (Permutation_in x Hp).
    destruct limit as [n|]; [now apply slice_to_incl in Hx | exact Hx].
  - intros Hl Hne.
    assert (Hs : shuffled <> []).
    { intros ->. apply Permutation_nil in Hp. contradiction. }
    destruct limit as [n|]; [|exact Hs].
    rewrite slice_to_nonneg by lia.
    destruct shuffled as [|q shuffled]; [contradiction|].
    cbn [length].
    replace (Nat.min (Z.to_nat n) (S (length shuffled)))
      with (S (Nat.min (Z.to_nat n - 1) (length shuffled))) by lia.
    discriminate.
Qed.

End ProgramFacts.

(** X17. The program runs a session only on a document it has obtained
    and in which the parser has found a question.  From GitHub this takes
    the module [requests] and a response with status 200 to the address
    of the exam number; from a file it takes a path that is not empty and
    exists, and a read that does not fail.  The session then runs on the
    parsed questions with the options of the command line. *)
Theorem main_runs_on_acquired_document :
  forall (rng : Type) (random_seed : Z -> rng)
         (random_shuffle : forall A : Type, list A -> rng -> list A * rng)
         (request_error : Type)
         (requests : option (str -> request_error + Z * str))
         (path : Type) (Path : str -> path) (path_exists : path -> bool)
         (io_error : Type) (read_text : path -> io_error + str)
         (args : Args.t) (g : rng) (inputs : list str) (r : result),
    main rng random_seed random_shuffle request_error requests path Path
      path_exists io_error read_text args g inputs = Ran r ->
    exists md_text,
      match Args.source args with
      | Args.github =>
          exists n get,
            Args.exam_number args = Some n
            /\ requests = Some get
            /\ get (build_github_raw_url n) = inr (200%Z, md_text)
      | Args.local =>
          exists p,
            Args.exam_md args = Some p
            /\ p <> []
            /\ path_exists (Path p) = true
            /\ read_text (Path p) = inr md_text
      end
      /\ parse_markdown_exam_text md_text <> []
      /\ r = run_quiz rng random_seed random_shuffle
               (parse_markdown_exam_text md_text)
               (Args.shuffle_questions args) (Args.shuffle_choices args)
               (Args.limit args) (Args.seed args) g inputs.
Proof.
  intros rng random_seed random_shuffle request_error requests path Path
    path_exists io_error read_text args g inputs r.
  unfold main, acquire, fetch_exam_from_github, read_local_exam.
  destruct (Args.source args).
  - destruct (Args.exam_number args) as [n|]; [|discriminate].
    destruct requests as [get|]; [|discriminate].
    destruct (get (build_github_raw_url n)) as [e|[status md]] eqn:Eg;
      [discriminate|].
    destruct (Z.eqb_spec status 200) as [->|]; [|discriminate].
    destruct (parse_markdown_exam_text md) eqn:Ep; [discriminate|].
    cbv zeta. cbn [is_nil]. intros H. inversion H as [Hr]. clear H.
    exists md.
    split; [exists n, get; auto|]. rewrite Ep.
    split; [discriminate | reflexivity].
  - destruct (Args.exam_md args) as [[|c p]|]; try discriminate.
    destruct (path_exists (Path (c :: p))) eqn:Ex; [|discriminate].
    cbn [negb]. destruct (read_text (Path (c :: p))) as [e|md] eqn:Er;
      [discriminate|].
    destruct (parse_markdown_exam_text md) eqn:Ep; [discriminate|].
    cbv zeta. cbn [is_nil]. intros H. inversion H as [Hr]. clear H.
    exists md.
    split; [exists (c :: p); repeat split; [discriminate | assumption..]|].
    rewrite Ep. split; [discriminate | reflexivity].
Qed.

Lemma acquire_exit (request_error : Type)
  (requests : option (str -> request_error + Z * str))
  (path : Type) (Path : str -> path) (path_exists : path -> bool)
  (io_error : Type) (read_text : path -> io_error + str)
  (args : Args.t) (x : main_result request_error path io_error) :
  acquire request_error requests path Path path_exists io_error read_text
    args = inl x ->
  exists status msg, x = Exit status msg /\ (status = 2 \/ status = 3)%Z.
Proof.
  unfold acquire, fetch_exam_from_github, read_local_exam.
  destruct (Args.source args).
  - destruct (Args.exam_number args) as [n|];
      [|intros [= <-]; eexists _, _; eauto].
    destruct requests as [get|]; [|intros [= <-]; eexists _, _; eauto].
    destruct (get (build_github_raw_url n)) as [e|[status md]];
      [intros [= <-]; eexists _, _; eauto|].
    destruct (status =? 200)%Z; [discriminate|].
    intros [= <-]. eexists _, _; eauto.
  - destruct (Args.exam_md args) as [[|c p]|];
      try (intros [= <-]; eexists _, _; eauto).
    destruct (negb (path_exists (Path (c :: p))));
      [intros [= <-]; eexists _, _; eauto|].
    destruct (read_text (Path (c :: p))); [|discriminate].
    intros [= <-]. eexists _, _; eauto.
Qed.

(** X18. With no limit, or a limit of at least 1, the session that the
    program runs never divides by zero, and the only exception it can
    raise is the [IndexError] of a question for which the document gives
    no correct letter. *)
Theorem main_session_exceptions :
  forall (rng : Type) (random_seed : Z -> rng)
         (random_shuffle : forall A : Type, list A -> rng -> list A * rng)
         (request_error : Type)
         (requests : option (str -> request_error + Z * str))
         (path : Type) (Path : str -> path) (path_exists : path -> bool)
         (io_error : Type) (read_text : path -> io_error + str)
         (args : Args.t) (g : rng) (inputs : list str) (r : result)
         (e : exn),
    (forall (A : Type) (l : list A) (g : rng),
        Permutation (fst (random_shuffle A l g)) l) ->
    match Args.limit args with
    | Some n => (1 <= n)%Z
    | None => True
    end ->
    main rng random_seed random_shuffle request_error requests path Path
      path_exists io_error read_text args g inputs = Ran r ->
    final r = Raised e ->
    e = IndexError
    /\ exists md_text q,
        acquire request_error requests path Path path_exists io_error
          read_text args = inr md_text
        /\ In q (parse_markdown_exam_text md_text)
        /\ correct_letters q = [].
Proof.
  intros rng random_seed random_shuffle request_error requests path Path
    path_exists io_error read_text args g inputs r e Hperm Hlimit.
  unfold main.
  destruct (acquire request_error requests path Path path_exists io_error
              read_text args) as [x|md] eqn:Ea.
  { destruct (acquire_exit _ _ _ _ _ _ _ _ _ Ea) as [s [m [-> _]]].
    discriminate. }
  destruct (parse_markdown_exam_text md) as [|q0 qs0] eqn:Ep;
    [discriminate|].
  cbv zeta. cbn [is_nil]. intros H. inversion H as [Hr]. clear H Hr r.
  unfold run_quiz.
  destruct (session_questions_asked rng random_seed random_shuffle Hperm
              (q0 :: qs0) (Args.shuffle_questions args) (Args.limit args)
              (Args.seed args) g) as [Hincl Hne].
  specialize (Hne Hlimit ltac:(discriminate)).
  destruct (session_questions rng random_seed random_shuffle (q0 :: qs0)
              (Args.shuffle_questions args) (Args.limit args)
              (Args.seed args) g) as [asked g'].
  cbn [fst] in Hincl, Hne. intros Hf.
  apply quiz_loop_raised in Hf.
  destruct Hf as [[_ Hz]|[-> [q [Hq Hc]]]].
  - destruct asked; [contradiction | discriminate].
  - split; [reflexivity|]. exists md, q. split; [reflexivity|].
    split; [rewrite Ep; now apply Hincl | assumption].
Qed.

Lemma main_runs_on_acquired_document_witness :
  exists md_text,
    (exists n get,
        Some 16%Z = Some n
        /\ Some (fun _ : str => @inr unit _ (200%Z, canonical_document))
           = Some get
        /\ get (build_github_raw_url n) = inr (200%Z, md_text))
    /\ parse_markdown_exam_text md_text <> []
    /\ run_plain [canonical_q1; canonical_q2] None [lit "A"]
       = run_quiz unit (fun _ => tt) no_shuffle
           (parse_markdown_exam_text md_text) false false None None tt
           [lit "A"].
Proof.
  apply (main_runs_on_acquired_document unit (fun _ => tt) no_shuffle unit
           (Some (fun _ => inr (200%Z, canonical_document))) str
           (fun p => p) (fun _ => false) unit (fun _ => inl tt) github_args
           tt [lit "A"]
           (run_plain [canonical_q1; canonical_q2] None [lit "A"])).
  vm_compute. reflexivity.
Defined.

Lemma main_session_exceptions_witness :
  IndexError = IndexError
  /\ exists md_text q,
      acquire unit (Some (fun _ => inr (200%Z, unanswered_document))) str
        (fun p => p) (fun _ => false) unit (fun _ => inl tt) github_args
      = inr md_text
      /\ In q (parse_markdown_exam_text md_text)
      /\ correct_letters q = [].
Proof.
  apply (main_session_exceptions unit (fun _ => tt) no_shuffle unit
           (Some (fun _ => inr (200%Z, unanswered_document))) str
           (fun p => p) (fun _ => false) unit (fun _ => inl tt) github_args
           tt [lit "A"] (run_plain [unanswered_q] None [lit "A"])
           IndexError).
  - intros A l g. apply Permutation_refl.
  - exact I.
  - vm_compute. reflexivity.
  - vm_compute. reflexivity.
Defined.

(** X19. A response whose status is not 200 is never parsed: with the
    source GitHub and an exam number, the program prints the error of the
    failed fetch, which names the exam number, the status and the address
    asked, and exits with status 3, whatever the body of the response.
    The same exit is taken when the module [requests] is missing. *)
Theorem main_fetch_failure :
  forall (rng : Type) (random_seed : Z -> rng)
         (random_shuffle : forall A : Type, list A -> rng -> list A * rng)
         (request_error : Type)
         (requests : option (str -> request_error + Z * str))
         (path : Type) (Path : str -> path) (path_exists : path -> bool)
         (io_error : Type) (read_text : path -> io_error + str)
         (args : Args.t) (g : rng) (inputs : list str) (n : Z),
    Args.source args = Args.github ->
    Args.exam_number args = Some n ->
    match requests with
    | None =>
        main rng random_seed random_shuffle request_error requests path Path
          path_exists io_error read_text args g inputs
        = Exit 3 (FetchFailed request_error path io_error
                    (RequestsMissing request_error path io_error))
    | Some get =>
        forall status body,
          get (build_github_raw_url n) = inr (status, body) ->
          status <> 200%Z ->
          main rng random_seed random_shuffle request_error requests path
            Path path_exists io_error read_text args g inputs
          = Exit 3 (FetchFailed request_error path io_error
                      (HttpStatus request_error path io_error n status
                         (build_github_raw_url n)))
    end.
Proof.
  intros rng random_seed random_shuffle request_error requests path Path
    path_exists io_error read_text args g inputs n Hs Hn.
  unfold main, acquire, fetch_exam_from_github. rewrite Hs, Hn.
  destruct requests as [get|]; [|reflexivity].
  intros status body Hg Hne. rewrite Hg.
  now destruct (Z.eqb_spec status 200).
Qed.

Lemma main_fetch_failure_witness :
  main unit (fun _ => tt) no_shuffle unit
    (Some (fun _ => inr (404%Z, lit "Not Found"))) str (fun p => p)
    (fun _ => false) unit (fun _ => inl tt) github_args tt []
  = Exit 3 (FetchFailed unit str unit
              (HttpStatus unit str unit 16 404 (build_github_raw_url 16))).
Proof.
  apply (main_fetch_failure unit (fun _ => tt) no_shuffle unit
           (Some (fun _ => inr (404%Z, lit "Not Found"))) str (fun p => p)
           (fun _ => false) unit (fun _ => inl tt) github_args tt [] 16%Z
           eq_refl eq_refl 404%Z (lit "Not Found")).
  - reflexivity.
  - discriminate.
Defined.

(** ** The order of the choices *)

Lemma mem_perm (c : ascii) (a b : list ascii) :
  Permutation a b -> mem c a = mem c b.
Proof.
  intros H. destruct (mem c a) eqn:Ea, (mem c b) eqn:Eb; try reflexivity.
  - apply mem_In in Ea. apply (Permutation_in c H) in Ea.
    apply mem_In in Ea. congruence.
  - apply mem_In in Eb. apply (Permutation_in c (Permutation_sym H)) in Eb.
    apply mem_In in Eb. congruence.
Qed.

Lemma check_answer_perm (q : Question) (chs chs' : list (ascii * str))
  (multi : bool) (line : str) :
  Permutation chs chs' ->
  check_answer q chs multi line = check_answer q chs' multi line.
Proof.
  intros H. pose proof (Permutation_map fst H) as Hp.
  unfold check_answer.
  destruct (map upper (filter is_alpha (strip line))) as [|c l];
    [reflexivity|].
  assert (Hs : issubset (c :: l) (map fst chs)
               = issubset (c :: l) (map fst chs')).
  { unfold issubset. generalize (c :: l). intros s.
    induction s as [|x s IH]; [reflexivity|]. cbn [forallb].
    now rewrite IH, (mem_perm x _ _ Hp). }
  rewrite Hs.
  destruct (negb (issubset (c :: l) (map fst chs'))); [|reflexivity].
  do 3 f_equal. apply filter_ext. intros x. f_equal. now apply mem_perm.
Qed.

(** X20. The order in which the choices are shown does not change how a
    line is judged: for two orders of the same choices the validation
    loop prints the same messages, accepts the same line and gives the
    same verdict. *)
Theorem choice_order_does_not_matter :
  forall (q : Question) (chs chs' : list (ascii * str))
         (inputs : list str),
    Permutation chs chs' ->
    ask_question q chs inputs = ask_question q chs' inputs.
Proof.
  intros q chs chs' inputs H. unfold ask_question.
  induction inputs as [|line inputs IH]; [reflexivity|].
  cbn [ask]. rewrite (check_answer_perm _ chs chs' _ _ H).
  destruct (check_answer (infer_choose_n q) chs'
              (is_multi (infer_choose_n q)) line); [|reflexivity..].
  now rewrite IH.
Qed.

Lemma choice_order_does_not_matter_witness :
  ask_question canonical_q2 (choices canonical_q2) [lit "D"; lit "CA"]
  = ask_question canonical_q2
      [("C"%char, lit "Z"); ("A"%char, lit "X"); ("B"%char, lit "Y")]
      [lit "D"; lit "CA"].
Proof.
  apply (choice_order_does_not_matter canonical_q2 (choices canonical_q2)
           [("C"%char, lit "Z"); ("A"%char, lit "X"); ("B"%char, lit "Y")]
           [lit "D"; lit "CA"]).
  apply Permutation_cons_app with (l1 := [("C"%char, lit "Z")]).
  apply Permutation_cons_app with (l1 := [("C"%char, lit "Z")]).
  apply Permutation_refl.
Defined.

(** ** The exit statuses *)


